(** * Automation task orchestrator (src/index.js): a shallow embedding

    The development follows the source file top to bottom:
    - [Str]: the JavaScript string primitives the code calls;
    - [JsMap]: the insertion-ordered [Map] behind [TaskManager.tasks];
    - the [PersistentAutomationState] record, the object store and the
      [Exec] monad (state plus JavaScript exceptions);
    - [TaskManager]: loadTasks, saveTasks, addTask, getTask, updateTask,
      removeTask, getAllTasks;
    - [findMessageInput], [getNextMessage], [sendMessages];
    - [startAutomationTask], [stopAutomationTask] and the routes;
    - the event loop [step] that interleaves requests and sessions.

    Modelling conventions.
    - Objects live in an object store ([heap]); a reference is a position in
      it.  The registry maps task ids to references, and a running session
      holds the very reference the registry holds, as in the source.
    - JavaScript numbers are integers here ([nat] for counters, [Z] for
      millisecond timestamps); doubles are exact on this range below 2^53.
    - Strings are byte strings; case mapping and trimming are the ASCII
      restriction of the JavaScript functions.
    - [new Date()] and randomness are inputs of the operation that reads them.
    - A write started by [saveTasks] takes effect before the next operation
      (the source does not await it; overlapping writes are not modelled).
    - [logMessage] only prints and is left out; the [console.log] lines of
      [TaskManager] are kept in [console]. *)

From Stdlib Require Import ZArith String Ascii List Lia Permutation Bool.
From stdpp Require Import base option list sorting strings.
Import ListNotations.

Local Open Scope string_scope.
Local Open Scope list_scope.
Local Open Scope nat_scope.

(** ** JavaScript string primitives (ASCII restriction) *)
Module Str.

Definition upper_ascii (c : ascii) : ascii :=
  let n := nat_of_ascii c in
  if (97 <=? n)%nat && (n <=? 122)%nat then ascii_of_nat (n - 32) else c.

Definition lower_ascii (c : ascii) : ascii :=
  let n := nat_of_ascii c in
  if (65 <=? n)%nat && (n <=? 90)%nat then ascii_of_nat (n + 32) else c.

Fixpoint map_string (f : ascii -> ascii) (s : string) : string :=
  match s with
  | EmptyString => EmptyString
  | String c r => String (f c) (map_string f r)
  end.

(** [s.toUpperCase()] *)
Definition toUpperCase : string -> string := map_string upper_ascii.

(** [s.toLowerCase()] *)
Definition toLowerCase : string -> string := map_string lower_ascii.

(** [hay.includes(needle)] *)
Fixpoint includes (needle hay : string) : bool :=
  String.prefix needle hay ||
  match hay with
  | EmptyString => false
  | String _ r => includes needle r
  end.

(** A string is truthy when it is not empty. *)
Definition truthy (s : string) : bool :=
  match s with EmptyString => false | _ => true end.

(** White space removed by [trim], restricted to ASCII:
    TAB, LF, VT, FF, CR and SPACE. *)
Definition is_white (c : ascii) : bool :=
  let n := nat_of_ascii c in
  ((9 <=? n)%nat && (n <=? 13)%nat) || (n =? 32)%nat.

Fixpoint trimStart (s : string) : string :=
  match s with
  | String c r => if is_white c then trimStart r else s
  | EmptyString => EmptyString
  end.

Fixpoint trimEnd (s : string) : string :=
  match s with
  | EmptyString => EmptyString
  | String c r =>
      match trimEnd r with
      | EmptyString => if is_white c then EmptyString else String c EmptyString
      | r' => String c r'
      end
  end.

(** [s.trim()] *)
Definition trim (s : string) : string := trimEnd (trimStart s).

(** [s.split(sep)] for a one-character separator: the result is never
    empty, and [n] separators give [n + 1] pieces. *)
Fixpoint split (sep : ascii) (s : string) : list string :=
  match s with
  | EmptyString => [EmptyString]
  | String c r =>
      if Ascii.eqb c sep then EmptyString :: split sep r
      else match split sep r with
           | p :: ps => String c p :: ps
           | [] => [String c EmptyString]
           end
  end.

Definition newline : ascii := ascii_of_nat 10.

End Str.

(** ** The insertion-ordered [Map] of JavaScript

    Keys are unique; [set] on a key already present keeps its position and
    replaces the value, on a new key appends; iteration follows the list. *)
Module JsMap.
Section WithValue.
Context {V : Type}.

Fixpoint get (k : string) (m : list (string * V)) : option V :=
  match m with
  | [] => None
  | (k', v) :: r => if String.eqb k' k then Some v else get k r
  end.

Fixpoint set (k : string) (v : V) (m : list (string * V)) : list (string * V) :=
  match m with
  | [] => [(k, v)]
  | (k', v') :: r =>
      if String.eqb k' k then (k, v) :: r else (k', v') :: set k v r
  end.

Fixpoint delete (k : string) (m : list (string * V)) : list (string * V) :=
  match m with
  | [] => []
  | (k', v') :: r =>
      if String.eqb k' k then r else (k', v') :: delete k r
  end.

Definition keys (m : list (string * V)) : list string := fst <$> m.

End WithValue.
End JsMap.

(** ** Data model *)

(** The configuration bundle built by POST /start_automation. *)
Record Config := mkConfig {
  chatId : string;
  namePrefix : string;
  delay : Z;
  cookies : string;
  messages : string;
}.

(** [class PersistentAutomationState]; [lastUpdated] is a [Date], kept as
    its millisecond value; [null] fields are [None]. *)
Record PersistentAutomationState := mkState {
  taskId : string;
  running : bool;
  messageCount : nat;
  startTime : option Z;
  config : option Config;
  lastUpdated : Z;
  processId : option string;
  messageRotationIndex : nat;
}.

(** [constructor(taskId)], with [now] the value of [new Date()]. *)
Definition new_PersistentAutomationState (id : string) (now : Z)
  : PersistentAutomationState :=
  {| taskId := id; running := false; messageCount := 0; startTime := None;
     config := None; lastUpdated := now; processId := None;
     messageRotationIndex := 0 |}.

(** A plain object that carries some of the fields of a task: the argument
    of [Object.assign] in [updateTask] ([{ running: false }], ...) and the
    records of the durable file. *)
Record Fields := mkFields {
  f_taskId : option string;
  f_running : option bool;
  f_messageCount : option nat;
  f_startTime : option (option Z);
  f_config : option (option Config);
  f_lastUpdated : option Z;
  f_processId : option (option string);
  f_messageRotationIndex : option nat;
}.

Definition no_fields : Fields :=
  mkFields None None None None None None None None.

(** [Object.assign(task, fields)]: a shallow merge, the fields present in
    the source object overwrite those of the target. *)
Definition Object_assign (t : PersistentAutomationState) (u : Fields)
  : PersistentAutomationState :=
  {| taskId := default (taskId t) (f_taskId u);
     running := default (running t) (f_running u);
     messageCount := default (messageCount t) (f_messageCount u);
     startTime := default (startTime t) (f_startTime u);
     config := default (config t) (f_config u);
     lastUpdated := default (lastUpdated t) (f_lastUpdated u);
     processId := default (processId t) (f_processId u);
     messageRotationIndex :=
       default (messageRotationIndex t) (f_messageRotationIndex u) |}.

(** Field writes [task.f = v]. *)
Definition set_running (b : bool) (t : PersistentAutomationState) :=
  mkState (taskId t) b (messageCount t) (startTime t) (config t)
          (lastUpdated t) (processId t) (messageRotationIndex t).

Definition set_messageCount (n : nat) (t : PersistentAutomationState) :=
  mkState (taskId t) (running t) n (startTime t) (config t)
          (lastUpdated t) (processId t) (messageRotationIndex t).

Definition set_startTime (v : option Z) (t : PersistentAutomationState) :=
  mkState (taskId t) (running t) (messageCount t) v (config t)
          (lastUpdated t) (processId t) (messageRotationIndex t).

Definition set_config (c : option Config) (t : PersistentAutomationState) :=
  mkState (taskId t) (running t) (messageCount t) (startTime t) c
          (lastUpdated t) (processId t) (messageRotationIndex t).

Definition set_lastUpdated (d : Z) (t : PersistentAutomationState) :=
  mkState (taskId t) (running t) (messageCount t) (startTime t) (config t)
          d (processId t) (messageRotationIndex t).

Definition set_processId (p : option string) (t : PersistentAutomationState) :=
  mkState (taskId t) (running t) (messageCount t) (startTime t) (config t)
          (lastUpdated t) p (messageRotationIndex t).

Definition set_messageRotationIndex (i : nat) (t : PersistentAutomationState) :=
  mkState (taskId t) (running t) (messageCount t) (startTime t) (config t)
          (lastUpdated t) (processId t) i.

(** What [JSON.stringify] writes for a task: every own field; the date as
    its ISO text, which [new Date(text)] reads back to the same millisecond
    value. *)
Definition to_json (t : PersistentAutomationState) : Fields :=
  {| f_taskId := Some (taskId t);
     f_running := Some (running t);
     f_messageCount := Some (messageCount t);
     f_startTime := Some (startTime t);
     f_config := Some (config t);
     f_lastUpdated := Some (lastUpdated t);
     f_processId := Some (processId t);
     f_messageRotationIndex := Some (messageRotationIndex t) |}.

(** Content of [automation_tasks.json]. *)
Inductive FileContent :=
| Garbage                                        (* [JSON.parse] rejects it *)
| JsonNull                                       (* the text [null] *)
| JsonObject (entries : list (string * Fields)). (* [Object.entries] of it *)

Inductive JsError :=
| ENOENT | EIO | SyntaxError | TypeError.

Inductive LogLine :=
| LoadedTasks (n : nat)
| ErrorLoadingTasks (e : JsError)
| ErrorSavingTasks (e : JsError).

(** A reference to an object of the store. *)
Abbreviation ref := nat.

Record World := mkWorld {
  heap : list PersistentAutomationState;  (* the objects, by reference *)
  tasks : list (string * ref);            (* [taskManager.tasks] *)
  disk : option FileContent;              (* [TASKS_FILE]; [None]: no file *)
  write_faults : list bool;               (* the coming [fs.writeFile] calls:
                                             [true] rejects; none left: succeeds *)
  console : list LogLine;
}.

(** ** Computations: a state over [World], with JavaScript exceptions *)

Inductive Completion (A : Type) :=
| Normal (a : A)
| Throw (e : JsError).
Arguments Normal {A} a.
Arguments Throw {A} e.

Definition Exec (A : Type) : Type := World -> Completion A * World.

Definition ret {A} (a : A) : Exec A := fun w => (Normal a, w).

Definition throw {A} (e : JsError) : Exec A := fun w => (Throw e, w).

Definition bind {A B} (m : Exec A) (k : A -> Exec B) : Exec B :=
  fun w =>
    match m w with
    | (Normal a, w') => k a w'
    | (Throw e, w') => (Throw e, w')
    end.

(** [try { body } catch (error) { handler }] *)
Definition try_catch {A} (body : Exec A) (handler : JsError -> Exec A) : Exec A :=
  fun w =>
    match body w with
    | (Normal a, w') => (Normal a, w')
    | (Throw e, w') => handler e w'
    end.

Definition gets {A} (f : World -> A) : Exec A := fun w => (Normal (f w), w).

Definition modify (f : World -> World) : Exec unit := fun w => (Normal tt, f w).

Declare Scope exec_scope.
Delimit Scope exec_scope with exec.
Notation "'let*' x := m 'in' k" := (bind m (fun x => k))
  (at level 10, x name, m at level 100, k at level 200) : exec_scope.
Notation "m ;; k" := (bind m (fun _ => k))
  (at level 100, k at level 200, right associativity) : exec_scope.
Local Open Scope exec_scope.

Definition set_heap (h : list PersistentAutomationState) (w : World) : World :=
  mkWorld h (tasks w) (disk w) (write_faults w) (console w).

Definition set_tasks (m : list (string * ref)) (w : World) : World :=
  mkWorld (heap w) m (disk w) (write_faults w) (console w).

Definition console_log (l : LogLine) : Exec unit :=
  modify (fun w => mkWorld (heap w) (tasks w) (disk w) (write_faults w)
                           (console w ++ [l])).

(** [new C(...)]: a fresh object, at the end of the store. *)
Definition alloc (t : PersistentAutomationState) : Exec ref :=
  fun w => (Normal (length (heap w)), set_heap (heap w ++ [t]) w).

(** Writing fields of the object behind a reference. *)
Definition mutate (a : ref) (f : PersistentAutomationState -> PersistentAutomationState)
  : Exec unit :=
  modify (fun w => set_heap (alter f a (heap w)) w).

(** Reading a field; a reference always points into the store, the other
    case is the [TypeError] of a read through [undefined]. *)
Definition read {A} (a : ref) (f : PersistentAutomationState -> A) : Exec A :=
  fun w =>
    match heap w !! a with
    | Some t => (Normal (f t), w)
    | None => (Throw TypeError, w)
    end.

(** ** [class TaskManager] *)
Module TaskManager.

(** Own-property order of an ordinary object: array-index keys first, in
    ascending numeric order, then the other keys in insertion order.  It is
    the order in which [Object.fromEntries(this.tasks)] is written out. *)
Fixpoint digits_value (s : string) (acc : N) : option N :=
  match s with
  | EmptyString => Some acc
  | String c r =>
      let n := nat_of_ascii c in
      if (48 <=? n)%nat && (n <=? 57)%nat
      then digits_value r (acc * 10 + N.of_nat (n - 48))%N
      else None
  end.

Definition array_index (s : string) : option N :=
  match s with
  | EmptyString => None
  | String c r =>
      if Ascii.eqb c "0"%char
      then match r with EmptyString => Some 0%N | _ => None end
      else match digits_value s 0 with
           | Some v => if (v <=? 4294967294)%N then Some v else None
           | None => None
           end
  end.

Section Ordering.
Context {V : Type}.

Fixpoint insert_index (i : N) (e : string * V) (l : list (N * (string * V)))
  : list (N * (string * V)) :=
  match l with
  | [] => [(i, e)]
  | (j, e') :: r =>
      if (i <? j)%N then (i, e) :: l else (j, e') :: insert_index i e r
  end.

Fixpoint index_entries (l : list (string * V)) : list (N * (string * V)) :=
  match l with
  | [] => []
  | e :: r =>
      match array_index (fst e) with
      | Some i => insert_index i e (index_entries r)
      | None => index_entries r
      end
  end.

Definition named_entries (l : list (string * V)) : list (string * V) :=
  List.filter (fun e => match array_index (fst e) with
                        | Some _ => false | None => true end) l.

Definition Object_fromEntries (l : list (string * V)) : list (string * V) :=
  (index_entries l).*2 ++ named_entries l.
End Ordering.

Definition fs_readFile : Exec FileContent :=
  fun w =>
    match disk w with
    | Some c => (Normal c, w)
    | None => (Throw ENOENT, w)
    end.

(** [JSON.parse(data)]: [None] is the value [null]. *)
Definition JSON_parse (data : FileContent) : Exec (option (list (string * Fields))) :=
  match data with
  | Garbage => throw SyntaxError
  | JsonNull => ret None
  | JsonObject entries => ret (Some entries)
  end.

Definition Object_entries (o : option (list (string * Fields)))
  : Exec (list (string * Fields)) :=
  match o with
  | Some entries => ret entries
  | None => throw TypeError
  end.

(** [fs.writeFile(TASKS_FILE, text)] *)
Definition fs_writeFile (c : FileContent) : Exec unit :=
  fun w =>
    match write_faults w with
    | true :: rest =>
        (Throw EIO, mkWorld (heap w) (tasks w) (disk w) rest (console w))
    | false :: rest =>
        (Normal tt, mkWorld (heap w) (tasks w) (Some c) rest (console w))
    | [] =>
        (Normal tt, mkWorld (heap w) (tasks w) (Some c) [] (console w))
    end.

Definition staleness_window : Z := 24 * 60 * 60 * 1000.

(** The body of the [for ... of Object.entries(savedTasks)] loop.  The
    constructor's own [new Date()] is read as [currentTime]. *)
Fixpoint load_entries (currentTime : Z) (entries : list (string * Fields))
  : Exec unit :=
  match entries with
  | [] => ret tt
  | (id, taskData) :: rest =>
      let* task :=
        alloc (Object_assign (new_PersistentAutomationState id currentTime)
                             taskData) in
      let* updated := read task lastUpdated in
      (if (currentTime - updated <? staleness_window)%Z
       then modify (fun w => set_tasks (JsMap.set id task (tasks w)) w)
       else ret tt) ;;
      load_entries currentTime rest
  end.

Definition loadTasks (now : Z) : Exec unit :=
  try_catch
    (let* data := fs_readFile in
     let* savedTasks := JSON_parse data in
     let currentTime := now in
     let* entries := Object_entries savedTasks in
     load_entries currentTime entries ;;
     let* size := gets (fun w => length (tasks w)) in
     console_log (LoadedTasks size))
    (fun error => console_log (ErrorLoadingTasks error)).

(** The registry as [JSON.stringify] sees it: each key with the fields of
    the object it refers to. *)
Definition snapshot (w : World) : list (string * Fields) :=
  omap (fun e => match heap w !! snd e with
                 | Some t => Some (fst e, to_json t)
                 | None => None
                 end) (tasks w).

Definition saveTasks : Exec unit :=
  try_catch
    (let* tasksObj := gets (fun w => Object_fromEntries (snapshot w)) in
     fs_writeFile (JsonObject tasksObj))
    (fun error => console_log (ErrorSavingTasks error)).

Definition addTask (id : string) (taskState : ref) : Exec unit :=
  modify (fun w => set_tasks (JsMap.set id taskState (tasks w)) w) ;;
  saveTasks.

Definition getTask (id : string) (now : Z) : Exec (option ref) :=
  let* task := gets (fun w => JsMap.get id (tasks w)) in
  match task with
  | Some a =>
      mutate a (set_lastUpdated now) ;;
      saveTasks ;;
      ret (Some a)
  | None => ret None
  end.

Definition updateTask (id : string) (updates : Fields) (now : Z) : Exec unit :=
  let* task := gets (fun w => JsMap.get id (tasks w)) in
  match task with
  | Some a =>
      mutate a (fun t => Object_assign t updates) ;;
      mutate a (set_lastUpdated now) ;;
      saveTasks
  | None => ret tt
  end.

Definition removeTask (id : string) : Exec unit :=
  modify (fun w => set_tasks (JsMap.delete id (tasks w)) w) ;;
  saveTasks.

(** [new Map(this.tasks)]: a copy of the map, holding the same objects. *)
Definition getAllTasks : Exec (list (string * ref)) :=
  gets (fun w => tasks w).

End TaskManager.

(** ** [generateTaskId]

    [hash] stands for the sixteen upper-case hexadecimal digits cut from the
    SHA-256 digest of the random string. *)
Definition generateTaskId (hash : string) : string := "RAGHAV-E2E-" +:+ hash.

(** ** [findMessageInput] *)

(** An element handle returned by [page.$$], with what the scan reads from
    the element and which of the three calls on it is going to reject. *)
Record ElementHandle := mkElement {
  contentEditable : string;
  tagName : string;
  placeholder : option string;        (* [el.placeholder] *)
  aria_label : option string;         (* [el.getAttribute('aria-label')] *)
  aria_placeholder : option string;   (* [el.getAttribute('aria-placeholder')] *)
  editable_check_throws : bool;       (* the first [page.evaluate] rejects *)
  click_throws : bool;                (* [element.click()] rejects *)
  text_read_throws : bool;            (* the second [page.evaluate] rejects *)
}.

(** The document: what [page.$$(selector)] answers, [None] when it rejects. *)
Record Page := mkPage {
  query : string -> option (list ElementHandle);
}.

(** Selector text.  [attr n op v] is the attribute test [[n op "v"]] and
    [attr_i] the same test with the case-insensitivity flag [i]. *)
Definition quoted (s : string) : string :=
  String (ascii_of_nat 34) (s +:+ String (ascii_of_nat 34) EmptyString).

Definition attr (name op value : string) : string :=
  "[" +:+ name +:+ op +:+ quoted value +:+ "]".

Definition attr_i (name op value : string) : string :=
  "[" +:+ name +:+ op +:+ quoted value +:+ " i]".

Definition sel_contenteditable : string := attr "contenteditable" "=" "true".
Definition sel_textarea : string := "textarea".
Definition sel_input_text : string := "input" +:+ attr "type" "=" "text".

Definition messageInputSelectors : list string :=
  [ "div" +:+ attr "contenteditable" "=" "true" +:+ attr "role" "=" "textbox";
    "div" +:+ attr "contenteditable" "=" "true"
          +:+ attr "data-lexical-editor" "=" "true";
    "div" +:+ attr_i "aria-label" "*=" "message"
          +:+ attr "contenteditable" "=" "true";
    "div" +:+ attr_i "aria-label" "*=" "Message"
          +:+ attr "contenteditable" "=" "true";
    "div" +:+ attr "contenteditable" "=" "true" +:+ attr "spellcheck" "=" "true";
    attr "role" "=" "textbox" +:+ attr "contenteditable" "=" "true";
    "textarea" +:+ attr_i "placeholder" "*=" "message";
    "div" +:+ attr_i "aria-placeholder" "*=" "message";
    "div" +:+ attr_i "data-placeholder" "*=" "message";
    sel_contenteditable;
    sel_textarea;
    sel_input_text ].

(** [el.contentEditable === 'true' || el.tagName === 'TEXTAREA' ||
    el.tagName === 'INPUT'] *)
Definition isEditable (el : ElementHandle) : bool :=
  String.eqb (contentEditable el) "true"
  || String.eqb (tagName el) "TEXTAREA"
  || String.eqb (tagName el) "INPUT".

(** [a || b] on values that are a string, [null] or [undefined]: the left
    one when it is truthy. *)
Definition or_else (a b : option string) : option string :=
  match a with
  | Some s => if Str.truthy s then a else b
  | None => b
  end.

(** [el.placeholder || el.getAttribute('aria-label') ||
    el.getAttribute('aria-placeholder') || ''] *)
Definition elementText (el : ElementHandle) : string :=
  default EmptyString
    (or_else (or_else (or_else (placeholder el) (aria_label el))
                      (aria_placeholder el))
             (Some EmptyString)).

Definition keywords : list string :=
  ["message"; "write"; "type"; "send"; "chat"; "msg"; "reply"; "text"; "aa"].

Definition hasKeyword (text : string) : bool :=
  existsb (fun keyword => Str.includes keyword (Str.toLowerCase text)) keywords.

Definition is_fallback_selector (selector : string) : bool :=
  String.eqb selector sel_contenteditable
  || String.eqb selector sel_textarea
  || String.eqb selector sel_input_text.

(** The two [page.evaluate] calls and the click, as pure completions. *)
Definition evaluate_isEditable (el : ElementHandle) : Completion bool :=
  if editable_check_throws el then Throw EIO else Normal (isEditable el).

Definition evaluate_elementText (el : ElementHandle) : Completion string :=
  if text_read_throws el then Throw EIO else Normal (elementText el).

(** The body of [for (const element of elements)]: [Some element] is
    [return element], [None] goes on with the next element (the [catch] of
    the element check does the same). *)
Definition check_element (idx : nat) (selector : string) (element : ElementHandle)
  : option ElementHandle :=
  match evaluate_isEditable element with
  | Throw _ => None
  | Normal false => None
  | Normal true =>
      (* the click and its 500 ms wait: errors are ignored *)
      match evaluate_elementText element with
      | Throw _ => None
      | Normal text =>
          if hasKeyword text then Some element
          else if idx <? 10 then Some element
          else if is_fallback_selector selector then Some element
          else None
      end
  end.

Fixpoint scan_elements (idx : nat) (selector : string)
  (elements : list ElementHandle) : option ElementHandle :=
  match elements with
  | [] => None
  | element :: rest =>
      match check_element idx selector element with
      | Some found => Some found
      | None => scan_elements idx selector rest
      end
  end.

(** [for (let idx = 0; idx < messageInputSelectors.length; idx++)], from
    [idx] on; a rejected [page.$$] goes on with the next selector. *)
Fixpoint scan_selectors (page : Page) (idx : nat) (selectors : list string)
  : option ElementHandle :=
  match selectors with
  | [] => None
  | selector :: rest =>
      match query page selector with
      | None => scan_selectors page (S idx) rest
      | Some elements =>
          match scan_elements idx selector elements with
          | Some found => Some found
          | None => scan_selectors page (S idx) rest
          end
      end
  end.

(** [findMessageInput(page, ...)]: [None] is [return null].  The waits and
    scrolls before the scan and the diagnostics after it leave no trace in
    the result; an exception of the first wait escapes to the caller and is
    part of the [Rejected] signal of [sendMessages] below. *)
Definition findMessageInput (page : Page) : option ElementHandle :=
  scan_selectors page 0 messageInputSelectors.

(** ** [getNextMessage]

    [None] in the result is [undefined] (an index outside the array). *)
Definition getNextMessage (messages : list string) (automationStateObj : option ref)
  : Exec (option string) :=
  match messages with
  | [] => ret (Some "Hello!")
  | _ =>
      match automationStateObj with
      | Some obj =>
          let* index := read obj messageRotationIndex in
          let message := messages !! (index mod length messages) in
          mutate obj (set_messageRotationIndex (index + 1)) ;;
          ret message
      | None => ret (messages !! 0)
      end
  end.

(** ** [sendMessages]

    The function is asynchronous: it runs in segments, each from one
    [await] to the next, and the event loop resumes it with the outcome of
    what it awaited.  [Phase] says where a session is suspended. *)
Inductive Phase :=
| Setup                          (* in the outer try, before the loop: browser,
                                    navigation, cookies, [findMessageInput] *)
| Sending (messageToSend : option string)
                                 (* in the inner try: click, type, send *)
| Delay                          (* in the inner try: [waitForTimeout(delay * 1000)] *)
| Recovery                       (* in the inner catch: [waitForTimeout(5000)] *)
| Returned (result : nat)        (* the promise is resolved *)
| Failed (error : JsError).      (* the promise is rejected *)

Record Session := mkSession {
  automationStateObj : ref;
  session_config : Config;
  phase : Phase;
  messagesList : list string;
  messagesSent : nat;
  dispatched : list string;      (* the messages submitted to the page, oldest first *)
}.

Inductive Signal :=
| PageReady (page : Page)        (* every await of [Setup] resolved; [page] is
                                    the document that [findMessageInput] scans *)
| Resolved                       (* the awaited steps completed *)
| Rejected (error : JsError).    (* one of them threw *)

Definition with_phase (ph : Phase) (s : Session) : Session :=
  mkSession (automationStateObj s) (session_config s) ph (messagesList s)
            (messagesSent s) (dispatched s).

(** [config.messages.split('\n').map(msg => msg.trim()).filter(msg => msg)],
    with ['Hello!'] pushed when nothing is left. *)
Definition parse_messages (text : string) : list string :=
  match List.filter Str.truthy (map Str.trim (Str.split Str.newline text)) with
  | [] => ["Hello!"]
  | l => l
  end.

(** [config.namePrefix ? `${config.namePrefix} ${baseMessage}` : baseMessage];
    a template prints [undefined] as the word. *)
Definition compose (prefix : string) (baseMessage : option string) : option string :=
  if Str.truthy prefix
  then Some (prefix +:+ " " +:+ default "undefined" baseMessage)
  else baseMessage.

Definition only_running (b : bool) : Fields :=
  mkFields None (Some b) None None None None None None.

Definition only_messageCount (n : nat) : Fields :=
  mkFields None None (Some n) None None None None None.

Definition running_and_messageCount (b : bool) (n : nat) : Fields :=
  mkFields None (Some b) (Some n) None None None None None.

(** The test of [while (automationStateObj.running)] and, when it holds,
    the loop body up to its first [await]; otherwise [return messagesSent]. *)
Definition loop_head (s : Session) : Exec Session :=
  let obj := automationStateObj s in
  let* go := read obj running in
  if go then
    let* baseMessage := getNextMessage (messagesList s) (Some obj) in
    let messageToSend := compose (namePrefix (session_config s)) baseMessage in
    ret (with_phase (Sending messageToSend) s)
  else
    ret (with_phase (Returned (messagesSent s)) s).

(** After the send steps went through: [messagesSent += 1] and the lines
    that store and publish the new count, up to the wait.  An exception in
    them is caught by the inner [catch] like any other. *)
Definition after_send (message : string) (now : Z) (s : Session) : Exec Session :=
  let obj := automationStateObj s in
  let sent := messagesSent s + 1 in
  let s1 := mkSession obj (session_config s) Delay (messagesList s) sent
                      (dispatched s ++ [message]) in
  try_catch
    (mutate obj (set_messageCount sent) ;;
     let* id := read obj taskId in
     TaskManager.updateTask id (only_messageCount sent) now ;;
     ret s1)
    (fun _ => ret (with_phase Recovery s1)).

(** After [findMessageInput] returned: lines 314 to 331. *)
Definition after_discovery (messageInput : option ElementHandle) (now : Z)
  (s : Session) : Exec Session :=
  let obj := automationStateObj s in
  match messageInput with
  | None =>
      let* id := read obj taskId in
      TaskManager.updateTask id (only_running false) now ;;
      ret (with_phase (Returned 0) s)
  | Some _ =>
      loop_head (mkSession obj (session_config s) Setup
                   (parse_messages (messages (session_config s))) 0
                   (dispatched s))
  end.

(** One segment of the function body, try and catch blocks included, for a
    session suspended in [phase s] and resumed with [sig].  A signal that
    cannot come from the awaited step leaves the session where it is. *)
Definition segment (sig : Signal) (now : Z) (s : Session) : Exec Session :=
  match phase s, sig with
  | Setup, PageReady page => after_discovery (findMessageInput page) now s
  | Setup, Rejected e => throw e
  | Sending (Some message), Resolved => after_send message now s
  | Sending None, Resolved       (* [type(undefined)] throws *)
  | Sending _, Rejected _ => ret (with_phase Recovery s)
  | Delay, Resolved => loop_head s
  | Delay, Rejected _ => ret (with_phase Recovery s)
  | Recovery, Resolved => loop_head s
  | Recovery, Rejected e => throw e
  | _, _ => ret s
  end.

(** The outer [catch (error)] block. *)
Definition on_fatal (s : Session) (now : Z) : Exec Session :=
  let* id := read (automationStateObj s) taskId in
  TaskManager.updateTask id (only_running false) now ;;
  ret (with_phase (Returned 0) s).

(** The [finally] block; closing the browser leaves no trace. *)
Definition on_finally (s : Session) (now : Z) : Exec unit :=
  let obj := automationStateObj s in
  let* id := read obj taskId in
  let* count := read obj messageCount in
  TaskManager.updateTask id (running_and_messageCount false count) now.

Definition is_settled (ph : Phase) : bool :=
  match ph with Returned _ | Failed _ => true | _ => false end.

(** Resuming a session: the segment inside [try ... catch ... finally].  The
    [finally] block runs when the function leaves the [try] statement, by
    [return] or by an exception, and an exception of the [catch] or
    [finally] block rejects the promise. *)
Definition resume (sig : Signal) (now : Z) (s : Session) (w : World)
  : Session * World :=
  if is_settled (phase s) then (s, w) else
  match try_catch (segment sig now s) (fun _ => on_fatal s now) w with
  | (Normal s', w') =>
      if is_settled (phase s') then
        match on_finally s' now w' with
        | (Normal _, w'') => (s', w'')
        | (Throw e, w'') => (with_phase (Failed e) s', w'')
        end
      else (s', w')
  | (Throw e, w') =>
      match on_finally s now w' with
      | (Normal _, w'') => (with_phase (Failed e) s, w'')
      | (Throw e', w'') => (with_phase (Failed e') s, w'')
      end
  end.

(** ** [startAutomationTask], [stopAutomationTask] and the routes *)

Definition new_session (obj : ref) (cfg : Config) : Session :=
  mkSession obj cfg Setup [] 0 [].

(** [startAutomationTask(config)]; [hash] is the random part of the new
    identifier and [now] the clock.  [sendMessages] starts at once and runs
    up to its first [await], which changes nothing. *)
Definition startAutomationTask (hash : string) (cfg : Config) (now : Z)
  : Exec (string * Session) :=
  let id := generateTaskId hash in
  let* automationState := alloc (new_PersistentAutomationState id now) in
  mutate automationState (set_running true) ;;
  mutate automationState (set_startTime (Some now)) ;;
  mutate automationState (set_config (Some cfg)) ;;
  mutate automationState (set_processId (Some id)) ;;
  TaskManager.addTask id automationState ;;
  ret (id, new_session automationState cfg).

Definition stopAutomationTask (id : string) (now : Z) : Exec bool :=
  let* task := TaskManager.getTask id now in
  match task with
  | Some a =>
      mutate a (set_running false) ;;
      TaskManager.updateTask id (only_running false) now ;;
      ret true
  | None => ret false
  end.

Inductive Response :=
| StartedJson (task_id : string)                 (* 200, status 'started' *)
| StatusJson (status : string) (task_id : string) (* 200 of /api/get_status *)
| StoppedJson (id : string)                      (* 200, status 'stopped' *)
| TaskNotFoundJson                               (* 404 { error: 'Task not found' } *)
| StopNotFoundJson                               (* 404 { status: 'error', ... } *)
| StatusPage                                     (* 200, status.html *)
| TaskNotFoundPage                               (* 404, task_not_found.html *)
| ServerError (e : JsError).                     (* the handler threw: 500 *)

(** POST /api/stop_automation/:taskId *)
Definition route_stop_automation (id : string) (now : Z) : Exec Response :=
  let* stopped := stopAutomationTask id now in
  if (stopped : bool) then ret (StoppedJson id) else ret StopNotFoundJson.

(** GET /api/get_status/:taskId *)
Definition route_get_status (id : string) (now : Z) : Exec Response :=
  let* task := TaskManager.getTask id now in
  match task with
  | None => ret TaskNotFoundJson
  | Some a =>
      let* is_running := read a running in
      let status := if (is_running : bool) then "running" else "stopped" in
      let* tid := read a taskId in
      ret (StatusJson status tid)
  end.

(** The loop of GET /status/:taskId over [getAllTasks()]: the first task
    whose identifier equals [id] once both are upper-cased. *)
Fixpoint find_ignoring_case (id : string) (allTasks : list (string * ref))
  : option ref :=
  match allTasks with
  | [] => None
  | (tid, t) :: rest =>
      if String.eqb (Str.toUpperCase tid) (Str.toUpperCase id)
      then Some t
      else find_ignoring_case id rest
  end.

(** GET /status/:taskId.  [task] is declared with [const], so the
    assignment [task = foundTask] throws a [TypeError]. *)
Definition route_status_page (id : string) (now : Z) : Exec Response :=
  let* task := TaskManager.getTask id now in
  match task with
  | Some _ => ret StatusPage
  | None =>
      let* allTasks := TaskManager.getAllTasks in
      match find_ignoring_case id allTasks with
      | None => ret TaskNotFoundPage
      | Some foundTask => throw TypeError
      end
  end.

(** ** The process: registry, sessions, and the events that drive them *)

Record System := mkSystem {
  world : World;
  sessions : list Session;
  responses : list Response;
}.

Inductive Event :=
| LoadCompletes (now : Z)        (* the [loadTasks()] of the constructor *)
| PostStart (hash : string) (cfg : Config) (now : Z)
| PostStop (id : string) (now : Z)
| GetStatus (id : string) (now : Z)
| GetStatusPage (id : string) (now : Z)
| Resume (sid : nat) (sig : Signal) (now : Z)
| RemoveTask (id : string).      (* [removeTask]; no route calls it *)

(** A request handler that throws is answered by the 500 of the framework. *)
Definition respond (handler : Exec Response) (sys : System) : System :=
  match handler (world sys) with
  | (Normal r, w) => mkSystem w (sessions sys) (responses sys ++ [r])
  | (Throw e, w) => mkSystem w (sessions sys) (responses sys ++ [ServerError e])
  end.

Definition step (ev : Event) (sys : System) : System :=
  match ev with
  | LoadCompletes now =>
      mkSystem (snd (TaskManager.loadTasks now (world sys)))
               (sessions sys) (responses sys)
  | PostStart hash cfg now =>
      match startAutomationTask hash cfg now (world sys) with
      | (Normal (id, s), w) =>
          mkSystem w (sessions sys ++ [s]) (responses sys ++ [StartedJson id])
      | (Throw e, w) =>
          mkSystem w (sessions sys) (responses sys ++ [ServerError e])
      end
  | PostStop id now => respond (route_stop_automation id now) sys
  | GetStatus id now => respond (route_get_status id now) sys
  | GetStatusPage id now => respond (route_status_page id now) sys
  | Resume sid sig now =>
      match sessions sys !! sid with
      | Some s =>
          let (s', w) := resume sig now s (world sys) in
          mkSystem w (<[sid := s']> (sessions sys)) (responses sys)
      | None => sys
      end
  | RemoveTask id =>
      mkSystem (snd (TaskManager.removeTask id (world sys)))
               (sessions sys) (responses sys)
  end.

Definition run (evs : list Event) (sys : System) : System :=
  fold_left (fun s ev => step ev s) evs sys.

(** The process right after [new TaskManager()]: an empty map, and whatever
    the file holds. *)
Definition initial_world (file : option FileContent) (faults : list bool) : World :=
  mkWorld [] [] file faults [].

Definition initial_system (file : option FileContent) (faults : list bool) : System :=
  mkSystem (initial_world file faults) [] [].

(** * Auxiliary definitions of the statements *)

(** [k] successive calls of [getNextMessage] on the same task. *)
Fixpoint next_messages (k : nat) (messages : list string) (obj : ref)
  : Exec (list (option string)) :=
  match k with
  | 0 => ret []
  | S k' =>
      let* m := getNextMessage messages (Some obj) in
      let* rest := next_messages k' messages obj in
      ret (m :: rest)
  end.

Definition rotation (T : list string) (c k : nat) : list (option string) :=
  map (fun i => T !! ((c + i) mod length T)) (seq 0 k).


(** Sample data of the examples. *)
Definition sample_config : Config :=
  mkConfig EmptyString EmptyString 1 EmptyString
           ("Hi" +:+ String Str.newline "Bye").

Definition sample_task (id : string) (on : bool) (count index : nat) (updated : Z)
  : PersistentAutomationState :=
  mkState id on count (Some 1000%Z) (Some sample_config) updated (Some id) index.

Definition sample_id : string := generateTaskId "0123456789ABCDEF".

Definition sample_world : World :=
  mkWorld [sample_task sample_id true 0 1 2000%Z] [(sample_id, 0)] None [] [].

(** The object that [loadTasks] builds from a stored record. *)
Definition reconstruct (id : string) (now : Z) (taskData : Fields)
  : PersistentAutomationState :=
  Object_assign (new_PersistentAutomationState id now) taskData.

(** A stored record is fresh when it is less than 24 hours old. *)
Definition fresh (now : Z) (id : string) (taskData : Fields) : bool :=
  (now - lastUpdated (reconstruct id now taskData) <? TaskManager.staleness_window)%Z.

(** A durable file with two records, written at time 0 and at time 5000. *)
Definition sample_entries : list (string * Fields) :=
  [ ("RAGHAV-E2E-AAAA", to_json (sample_task "RAGHAV-E2E-AAAA" false 3 3 0%Z));
    ("RAGHAV-E2E-BBBB", to_json (sample_task "RAGHAV-E2E-BBBB" true 7 8 5000%Z)) ].

(** A registry as the program builds it: distinct keys, each referring to
    an object of the store. *)
Definition registry_ok (w : World) : Prop :=
  NoDup (JsMap.keys (tasks w))
  /\ Forall (fun e => is_Some (heap w !! snd e)) (tasks w).

(** The world after a [saveTasks] whose write went through, and after one
    whose write was rejected. *)
Definition after_write (w : World) : World :=
  mkWorld (heap w) (tasks w)
          (Some (JsonObject (TaskManager.Object_fromEntries (TaskManager.snapshot w))))
          (tail (write_faults w)) (console w).

Definition after_failed_write (w : World) : World :=
  mkWorld (heap w) (tasks w) (disk w) (tail (write_faults w))
          (console w ++ [ErrorSavingTasks EIO]).

(** A registry with two tasks, one stopped and one running. *)
Definition two_task_world : World :=
  mkWorld [ sample_task "RAGHAV-E2E-AAAA" false 3 3 0%Z;
            sample_task "RAGHAV-E2E-BBBB" true 7 8 5000%Z ]
          [ ("RAGHAV-E2E-AAAA", 0); ("RAGHAV-E2E-BBBB", 1) ]
          None [] [].

(** The elements of the document in the order of the scan: selector after
    selector, first to last, and under each selector the elements that
    [page.$$] returned, in document order; a selector whose query rejects
    contributes nothing.  Each comes with the index and text of its
    selector. *)
Fixpoint candidates_from (page : Page) (idx : nat) (selectors : list string)
  : list (nat * string * ElementHandle) :=
  match selectors with
  | [] => []
  | selector :: rest =>
      match query page selector with
      | Some elements => (fun el => (idx, selector, el)) <$> elements
      | None => []
      end ++ candidates_from page (S idx) rest
  end.

Definition candidates (page : Page) : list (nat * string * ElementHandle) :=
  candidates_from page 0 messageInputSelectors.

(** Both evaluations on the element go through and it is editable content
    or a text-entry control. *)
Definition interactive (el : ElementHandle) : bool :=
  negb (editable_check_throws el) && isEditable el && negb (text_read_throws el).

(** The acceptance policy as the specification words it: a keyword in the
    hint text, or one of the first ten patterns, or one of the three generic
    fallback patterns. *)
Definition acceptable (c : nat * string * ElementHandle) : bool :=
  let '(idx, selector, el) := c in
  interactive el
  && (hasKeyword (elementText el) || (idx <? 10) || is_fallback_selector selector).

(** Candidates compared by the index of their selector. *)
Definition by_selector_index (c1 c2 : nat * string * ElementHandle) : Prop :=
  c1.1.1 <= c2.1.1.

(** A document in which only the last pattern, [input[type="text"]], finds an
    element: a text input without any hint. *)
Definition bare_input : ElementHandle :=
  mkElement "inherit" "INPUT" (Some EmptyString) None None false false false.

Definition late_fallback_page : Page :=
  mkPage (fun selector => if String.eqb selector sel_input_text
                          then Some [bare_input] else Some []).

(** Two task objects that agree on every field but [lastUpdated]. *)
Definition same_but_lastUpdated (t t' : PersistentAutomationState) : Prop :=
  taskId t' = taskId t /\ running t' = running t
  /\ messageCount t' = messageCount t /\ startTime t' = startTime t
  /\ config t' = config t /\ processId t' = processId t
  /\ messageRotationIndex t' = messageRotationIndex t.

(** A durable file that cannot be read as a registry: missing or unreadable,
    not JSON, or the JSON value [null]. *)
Definition unusable (file : option FileContent) : Prop :=
  file = None \/ file = Some Garbage \/ file = Some JsonNull.

Definition with_console_line (l : LogLine) (w : World) : World :=
  mkWorld (heap w) (tasks w) (disk w) (write_faults w) (console w ++ [l]).

(** From store [h] to store [h']: every object is still there, and one whose
    [running] flag was false still has it false. *)
Definition never_resurrected (h h' : list PersistentAutomationState) : Prop :=
  forall a t, h !! a = Some t ->
    exists t', h' !! a = Some t' /\ (running t = false -> running t' = false).

(** A computation that resurrects no task, from whatever world it starts. *)
Definition one_way {A} (m : Exec A) : Prop :=
  forall w, never_resurrected (heap w) (heap (snd (m w))).

(** A field update that does not turn [running] on. *)
Definition keeps_stopped (f : PersistentAutomationState -> PersistentAutomationState)
  : Prop :=
  forall t, running t = false -> running (f t) = false.

(** The object that [startAutomationTask] has built when it calls [addTask]. *)
Definition started_task (id : string) (cfg : Config) (now : Z)
  : PersistentAutomationState :=
  mkState id true 0 (Some now) (Some cfg) now (Some id) 0.

(** One turn of the sending loop for a session that waits in [Delay] or
    [Recovery]: the wait ends, the loop composes the next message and tries
    to send it; [sent] tells whether the send steps go through or throw. *)
Definition attempt (now : Z) (sent : bool) (sw : Session * World)
  : Session * World :=
  let (s1, w1) := resume Resolved now sw.1 sw.2 in
  resume (if sent then Resolved else Rejected EIO) now s1 w1.

Definition attempts (now : Z) (outcomes : list bool) (sw : Session * World)
  : Session * World :=
  fold_left (fun acc sent => attempt now sent acc) outcomes sw.

(** The message composed at cursor [c]. *)
Definition composed (cfg : Config) (T : list string) (c : nat) : string :=
  default EmptyString (compose (namePrefix cfg) (T !! (c mod length T))).

(** The messages that reach the page when the attempts start at cursor [c]:
    the attempt number [i] composes from cursor [c + i], and its message is
    dispatched when the attempt succeeds. *)
Fixpoint dispatched_from (cfg : Config) (T : list string) (c : nat)
  (outcomes : list bool) : list string :=
  match outcomes with
  | [] => []
  | sent :: rest =>
      (if sent then [composed cfg T c] else [])
        ++ dispatched_from cfg T (c + 1) rest
  end.

Definition successes (outcomes : list bool) : nat :=
  length (List.filter (fun b => b) outcomes).

Definition waiting (s : Session) : Prop :=
  phase s = Delay \/ phase s = Recovery.

(** The run of the counterexample to a cursor that waits for a failed
    attempt: a task with the templates Hi and Bye is started and finds its
    input ([first_attempt]); the first send throws and the loop comes back
    after the recovery delay ([retry_after_failure]). *)
Definition first_attempt : System :=
  run [ PostStart "0123456789ABCDEF" sample_config 1000;
        Resume 0 (PageReady late_fallback_page) 2000 ]
      (initial_system None []).

Definition retry_after_failure : System :=
  run [ Resume 0 (Rejected EIO) 3000; Resume 0 Resolved 8000 ] first_attempt.

(** A session of [sample_world]'s task that waits in the recovery delay. *)
Definition waiting_session : Session :=
  mkSession 0 sample_config Recovery ["Hi"; "Bye"] 0 [].

(** The identifier of the sample task in lower case. *)
Definition sample_id_lower : string := "raghav-e2e-0123456789abcdef".

(** A computation that keeps the property [I] of the world. *)
Definition preserves (I : World -> Prop) {A} (m : Exec A) : Prop :=
  forall w, I w -> I (snd (m w)).

(** From store [h] to store [h']: every object is still there and stands in
    the relation [R] to what it was. *)
Definition store_rel (R : relation PersistentAutomationState)
  (h h' : list PersistentAutomationState) : Prop :=
  forall a t, h !! a = Some t -> exists t', h' !! a = Some t' /\ R t t'.

Definition respects (R : relation PersistentAutomationState) {A} (m : Exec A)
  : Prop :=
  forall w, store_rel R (heap w) (heap (snd (m w))).

(** What a task object keeps for life: its identifier, start time,
    configuration and process label; and its rotation index never goes
    back. *)
Definition evolves (t t' : PersistentAutomationState) : Prop :=
  taskId t' = taskId t /\ startTime t' = startTime t
  /\ config t' = config t /\ processId t' = processId t
  /\ messageRotationIndex t <= messageRotationIndex t'.


(** ** The cookies of [sendMessages]

    The block that turns [config.cookies] into the argument of
    [page.setCookie]. *)
Module Cookies.

Record Cookie := mkCookie {
  name : string;
  value : string;
  domain : string;
  path : string;
}.

(** [s.indexOf(c)] for a character [c]; [None] is the answer -1. *)
Fixpoint indexOf (c : ascii) (s : string) : option nat :=
  match s with
  | EmptyString => None
  | String c' r => if Ascii.eqb c' c then Some 0 else S <$> indexOf c r
  end.

(** [s.substring(0, n)] *)
Fixpoint substring_to (n : nat) (s : string) : string :=
  match n, s with
  | S n', String c r => String c (substring_to n' r)
  | _, _ => EmptyString
  end.

(** [s.substring(n)] *)
Fixpoint substring_from (n : nat) (s : string) : string :=
  match n, s with
  | S n', String _ r => substring_from n' r
  | _, _ => s
  end.

(** The body of [for (const cookie of cookieArray)]: [Some] is the object
    pushed, [None] when nothing is pushed. *)
Definition parse_cookie (cookie : string) : option Cookie :=
  let cookieTrimmed := Str.trim cookie in
  if Str.truthy cookieTrimmed then
    match indexOf "="%char cookieTrimmed with
    | Some firstEqualIndex =>
        if 0 <? firstEqualIndex then
          Some (mkCookie
                  (Str.trim (substring_to firstEqualIndex cookieTrimmed))
                  (Str.trim (substring_from (firstEqualIndex + 1) cookieTrimmed))
                  ".facebook.com" "/")
        else None
    | None => None
    end
  else None.

(** The array [cookies] after the loop over [config.cookies.split(';')]. *)
Definition parse_cookies (text : string) : list Cookie :=
  omap parse_cookie (Str.split ";"%char text).

(** The argument of [page.setCookie], [None] when the guard
    [config.cookies && config.cookies.trim()] is false and it is not
    called. *)
Definition cookies_to_set (cfg : Config) : option (list Cookie) :=
  if Str.truthy (cookies cfg) && Str.truthy (Str.trim (cookies cfg))
  then Some (parse_cookies (cookies cfg))
  else None.

End Cookies.

(** The outcomes of the set-up phase that end a session before it sends:
    an exception, or a document in which no message input is found. *)
Definition fails_before_sending (sig : Signal) : Prop :=
  match sig with
  | Rejected _ => True
  | PageReady page => findMessageInput page = None
  | Resolved => False
  end.

(** The text of the [status] field of GET /api/get_status. *)
Definition status_text (is_running : bool) : string :=
  if is_running then "running" else "stopped".

(** The stored records that [loadTasks] keeps, in the order of the file. *)
Definition fresh_entries (now : Z) (entries : list (string * Fields))
  : list (string * Fields) :=
  List.filter (fun e => fresh now e.1 e.2) entries.


(** [m] is one of the templates of the session's configuration, behind the
    name prefix when there is one. *)
Definition from_templates (s : Session) (m : string) : Prop :=
  exists template,
    template ∈ parse_messages (messages (session_config s))
    /\ compose (namePrefix (session_config s)) (Some template) = Some m.

(** The messages dispatched are counted by [messagesSent] and come from the
    templates. *)
Definition counts_ok (s : Session) : Prop :=
  length (dispatched s) = messagesSent s
  /\ Forall (from_templates s) (dispatched s).




(** A session of [sample_world]'s task that has not left the set-up phase. *)
Definition setup_session : Session := new_session 0 sample_config.

(** [sample_world] with its task stopped. *)
Definition stopped_world : World :=
  mkWorld [sample_task sample_id false 0 1 2000%Z] [(sample_id, 0)] None [] [].


(** A process with [sample_world] and one session waiting in recovery. *)
Definition sample_system : System := mkSystem sample_world [waiting_session] [].

(** * Properties *)

(** ** Object store *)

Lemma alter_as_insert {A} (f : A -> A) (l : list A) (i : nat) (x : A) :
  l !! i = Some x -> alter f i l = <[i := f x]> l.
Proof.
  intros H. apply list_eq. intros j.
  rewrite list_lookup_alter.
  destruct (decide (i = j)) as [->|Hne].
  - rewrite H. simpl. symmetry. apply list_lookup_insert_eq.
    eapply lookup_lt_Some; eauto.
  - symmetry. by apply list_lookup_insert_ne.
Qed.

Lemma getNextMessage_step (T : list string) (obj : ref) (w : World)
  (t : PersistentAutomationState) :
  T <> [] -> heap w !! obj = Some t ->
  getNextMessage T (Some obj) w =
    (Normal (T !! (messageRotationIndex t mod length T)),
     set_heap (<[obj := set_messageRotationIndex (messageRotationIndex t + 1) t]> (heap w)) w).
Proof.
  intros HT Hobj. destruct T as [|m T']; [done|].
  unfold getNextMessage, bind, read, mutate, modify, ret. rewrite Hobj.
  by rewrite (alter_as_insert _ _ _ t Hobj).
Qed.

Lemma rotation_in_range (T : list string) (c k : nat) :
  T <> [] -> Forall is_Some (rotation T c k).
Proof.
  intros HT. unfold rotation. apply Forall_map, Forall_forall. intros i _.
  apply lookup_lt_is_Some. apply Nat.mod_upper_bound.
  destruct T; simpl; [done | lia].
Qed.

Lemma set_heap_same (w : World) : set_heap (heap w) w = w.
Proof. by destruct w. Qed.

Lemma rotation_S (T : list string) (c k : nat) :
  rotation T c (S k) = T !! (c mod length T) :: rotation T (c + 1) k.
Proof.
  unfold rotation. simpl. rewrite Nat.add_0_r. f_equal.
  rewrite <- seq_shift, map_map. apply map_ext. intros i.
  do 2 f_equal. lia.
Qed.

Lemma next_messages_spec (k : nat) : forall (T : list string) (obj : ref) (w : World)
  (t : PersistentAutomationState),
  T <> [] -> heap w !! obj = Some t ->
  next_messages k T obj w =
    (Normal (rotation T (messageRotationIndex t) k),
     set_heap (<[obj := set_messageRotationIndex (messageRotationIndex t + k) t]>
                 (heap w)) w).
Proof.
  induction k as [|k IH]; intros T obj w t HT Hobj.
  - simpl. unfold ret. f_equal. rewrite Nat.add_0_r.
    replace (set_messageRotationIndex (messageRotationIndex t) t) with t
      by (by destruct t).
    rewrite list_insert_id by done. by rewrite set_heap_same.
  - cbn [next_messages]. unfold bind at 1.
    rewrite (getNextMessage_step T obj w t HT Hobj).
    set (t1 := set_messageRotationIndex (messageRotationIndex t + 1) t).
    set (w1 := set_heap (<[obj:=t1]> (heap w)) w).
    assert (H1 : heap w1 !! obj = Some t1).
    { subst w1. simpl. apply list_lookup_insert_eq. eapply lookup_lt_Some; eauto. }
    unfold bind. rewrite (IH T obj w1 t1 HT H1). unfold ret.
    rewrite rotation_S. f_equal.
    subst w1 t1. simpl. unfold set_heap. simpl.
    rewrite list_insert_insert_eq. unfold set_messageRotationIndex. simpl.
    do 3 f_equal. lia.
Qed.

(** ** Message rotation *)

(** C2: for a non-empty template list [T] and a task whose cursor is [c],
    one call of [getNextMessage] returns [T[c mod |T|]] (an index inside the
    list) and moves the cursor to [c + 1]; [k] successive calls return
    [T[c mod |T|]], [T[(c+1) mod |T|]], ..., [T[(c+k-1) mod |T|]], for every
    [k], also beyond [|T|], and leave the cursor at [c + k]; nothing else
    in the process changes. *)
Theorem getNextMessage_wraps_around (T : list string) (c k : nat) (obj : ref)
  (w : World) (t : PersistentAutomationState) :
  T <> [] -> heap w !! obj = Some t -> messageRotationIndex t = c ->
  getNextMessage T (Some obj) w =
    (Normal (T !! (c mod length T)),
     set_heap (<[obj := set_messageRotationIndex (c + 1) t]> (heap w)) w)
  /\ c mod length T < length T
  /\ next_messages k T obj w =
       (Normal (rotation T c k),
        set_heap (<[obj := set_messageRotationIndex (c + k) t]> (heap w)) w)
  /\ Forall is_Some (rotation T c k).
Proof.
  intros HT Hobj <-. repeat split.
  - by apply getNextMessage_step.
  - apply Nat.mod_upper_bound. destruct T; simpl; [done | lia].
  - by apply next_messages_spec.
  - by apply rotation_in_range.
Qed.

Lemma getNextMessage_wraps_around_witness :
  next_messages 5 ["Hi"; "Bye"] 0 sample_world =
    (Normal [Some "Bye"; Some "Hi"; Some "Bye"; Some "Hi"; Some "Bye"],
     set_heap [sample_task sample_id true 0 6 2000%Z] sample_world).
Proof.
  exact (proj1 (proj2 (proj2
    (getNextMessage_wraps_around ["Hi"; "Bye"] 1 5 0 sample_world
       (sample_task sample_id true 0 1 2000%Z)
       ltac:(discriminate) eq_refl eq_refl)))).
Defined.

(** ** The map of the registry *)

Section JsMapFacts.
Context {V : Type}.
Implicit Types (m : list (string * V)) (k : string) (v : V).

Lemma get_set_eq m k v : JsMap.get k (JsMap.set k v m) = Some v.
Proof.
  induction m as [|[k' v'] m IH]; simpl.
  - by rewrite String.eqb_refl.
  - destruct (String.eqb_spec k' k) as [->|Hne]; simpl.
    + by rewrite String.eqb_refl.
    + destruct (String.eqb_spec k' k); [done | apply IH].
Qed.

Lemma get_set_ne m k k' v : k <> k' -> JsMap.get k' (JsMap.set k v m) = JsMap.get k' m.
Proof.
  intros Hne. induction m as [|[k0 v0] m IH]; simpl.
  - destruct (String.eqb_spec k k'); [done | done].
  - destruct (String.eqb_spec k0 k) as [->|Hk]; simpl.
    + destruct (String.eqb_spec k k'); [done | done].
    + destruct (String.eqb_spec k0 k'); [done | apply IH].
Qed.

Lemma get_None_not_key m k : JsMap.get k m = None <-> k ∉ JsMap.keys m.
Proof.
  induction m as [|[k0 v0] m IH]; simpl.
  - split; [intros _; apply not_elem_of_nil | done].
  - destruct (String.eqb_spec k0 k) as [->|Hk].
    + split; [done | intros H; exfalso; apply H; left].
    + rewrite IH. unfold JsMap.keys. cbn [fmap list_fmap fst].
      rewrite not_elem_of_cons. intuition congruence.
Qed.

Lemma get_Some_elem m k v : JsMap.get k m = Some v -> (k, v) ∈ m.
Proof.
  induction m as [|[k0 v0] m IH]; simpl; [done|].
  destruct (String.eqb_spec k0 k) as [->|Hk].
  - intros [= ->]. left.
  - intros H. right. by apply IH.
Qed.

Lemma get_elem_NoDup m k v :
  NoDup (JsMap.keys m) -> (k, v) ∈ m -> JsMap.get k m = Some v.
Proof.
  induction m as [|[k0 v0] m IH]; simpl; intros Hnd Hin.
  - by apply elem_of_nil in Hin.
  - apply NoDup_cons in Hnd as [Hk0 Hnd].
    apply elem_of_cons in Hin as [[= -> ->]|Hin].
    + by rewrite String.eqb_refl.
    + destruct (String.eqb_spec k0 k) as [->|Hk]; [|by apply IH].
      exfalso. apply Hk0. apply (list_elem_of_fmap_2 fst _ _ Hin).
Qed.
End JsMapFacts.

(** ** Recovery from the durable file *)

Lemma load_entries_spec (now : Z) (entries : list (string * Fields)) :
  forall w : World,
  exists w' : World,
    TaskManager.load_entries now entries w = (Normal tt, w')
    /\ heap w' = heap w ++ ((fun e => reconstruct (fst e) now (snd e)) <$> entries)
    /\ disk w' = disk w
    /\ write_faults w' = write_faults w
    /\ console w' = console w
    /\ (forall id, id ∉ entries.*1 ->
          JsMap.get id (tasks w') = JsMap.get id (tasks w))
    /\ (NoDup entries.*1 -> forall i id d,
          entries !! i = Some (id, d) ->
          JsMap.get id (tasks w') =
            if fresh now id d then Some (length (heap w) + i)
            else JsMap.get id (tasks w)).
Proof.
  induction entries as [|[id0 d0] rest IH]; intros w.
  - exists w. simpl. unfold ret. rewrite app_nil_r. repeat split; try done.
  - cbn [TaskManager.load_entries]. unfold bind at 1, alloc.
    unfold bind at 1, read. cbn [heap set_heap].
    rewrite lookup_app_r, Nat.sub_diag by lia. cbn [lookup list_lookup].
    fold (reconstruct id0 now d0). fold (fresh now id0 d0).
    set (t0 := reconstruct id0 now d0).
    set (w0 := set_heap (heap w ++ [t0]) w).
    set (w1 := if fresh now id0 d0
               then set_tasks (JsMap.set id0 (length (heap w)) (tasks w0)) w0
               else w0).
    assert (Hstep : forall k : Exec unit,
      bind (if fresh now id0 d0
            then modify (fun v => set_tasks (JsMap.set id0 (length (heap w))
                                   (tasks v)) v)
            else ret tt) (fun _ => k) w0 = k w1).
    { intros k. unfold bind, w1. destruct (fresh now id0 d0); reflexivity. }
    assert (Hh1 : heap w1 = heap w ++ [t0]).
    { unfold w1. destruct (fresh now id0 d0); reflexivity. }
    destruct (IH w1) as (w' & Hrun & Hheap & Hdisk & Hfaults & Hcons & Hother & Hin).
    exists w'. split; [|split; [|split; [|split; [|split; [|split]]]]].
    + etransitivity; [|exact Hrun].
      apply (Hstep (TaskManager.load_entries now rest)).
    + rewrite Hheap, Hh1. cbn [fmap list_fmap fst snd]. by rewrite <- app_assoc.
    + rewrite Hdisk. unfold w1. by destruct (fresh now id0 d0).
    + rewrite Hfaults. unfold w1. by destruct (fresh now id0 d0).
    + rewrite Hcons. unfold w1. by destruct (fresh now id0 d0).
    + intros id Hid. cbn [fmap list_fmap fst] in Hid.
      apply not_elem_of_cons in Hid as [Hne Hid].
      rewrite (Hother id Hid). unfold w1.
      destruct (fresh now id0 d0); [|done]. cbn [tasks set_tasks].
      by apply get_set_ne.
    + intros Hnd i id d Hi. cbn [fmap list_fmap fst] in Hnd.
      apply NoDup_cons in Hnd as [Hid0 Hnd].
      destruct i as [|i]; cbn [lookup list_lookup] in Hi.
      * injection Hi as -> ->. rewrite (Hother id Hid0). unfold w1.
        rewrite Nat.add_0_r.
        destruct (fresh now id d); [|done]. cbn [tasks set_tasks].
        apply get_set_eq.
      * assert (Hne : id0 <> id).
        { intros ->. apply Hid0.
          apply (list_elem_of_fmap_2 fst rest (id, d)).
          eapply list_elem_of_lookup_2; eauto. }
        rewrite (Hin Hnd i id d Hi). rewrite Hh1, length_app. simpl.
        replace (length (heap w) + 1 + i) with (length (heap w) + S i) by lia.
        destruct (fresh now id d); [done|].
        unfold w1. destruct (fresh now id0 d0); [|done].
        cbn [tasks set_tasks]. by apply get_set_ne.
Qed.

Lemma loadTasks_from_object (now : Z) (entries : list (string * Fields))
  (w : World) :
  disk w = Some (JsonObject entries) ->
  exists w1 : World,
    TaskManager.load_entries now entries w = (Normal tt, w1)
    /\ TaskManager.loadTasks now w =
         (Normal tt,
          mkWorld (heap w1) (tasks w1) (disk w1) (write_faults w1)
                  (console w1 ++ [LoadedTasks (length (tasks w1))])).
Proof.
  intros Hdisk.
  destruct (load_entries_spec now entries w) as (w1 & Hrun & _).
  exists w1. split; [done|].
  unfold TaskManager.loadTasks, try_catch, bind, TaskManager.fs_readFile.
  rewrite Hdisk. cbn [TaskManager.JSON_parse TaskManager.Object_entries ret].
  by rewrite Hrun.
Qed.

(** C3: at process start, with the durable file holding the records
    [entries], [loadTasks] keeps the record stored under [id] (the registry
    maps [id] to the object rebuilt from it) exactly when its [lastUpdated]
    is less than 24 hours before the load time; a record that is 24 hours
    old or older is absent from the registry, the boundary of exactly 24
    hours included. *)
Theorem loadTasks_staleness (entries : list (string * Fields))
  (faults : list bool) (now : Z) (id : string) (d : Fields) :
  NoDup entries.*1 -> (id, d) ∈ entries ->
  let result := TaskManager.loadTasks now
                  (initial_world (Some (JsonObject entries)) faults) in
  let t := reconstruct id now d in
  let age := (now - lastUpdated t)%Z in
  fst result = Normal tt
  /\ (forall updated, f_lastUpdated d = Some updated -> lastUpdated t = updated)
  /\ ((exists a, JsMap.get id (tasks (snd result)) = Some a
                 /\ heap (snd result) !! a = Some t)
      <-> (age < TaskManager.staleness_window)%Z)
  /\ ((TaskManager.staleness_window <= age)%Z ->
      JsMap.get id (tasks (snd result)) = None)
  /\ (age = TaskManager.staleness_window ->
      JsMap.get id (tasks (snd result)) = None).
Proof.
  intros Hnd Hin result t age.
  set (w0 := initial_world (Some (JsonObject entries)) faults) in *.
  destruct (loadTasks_from_object now entries w0 eq_refl) as (w1 & Hrun & Hload).
  destruct (load_entries_spec now entries w0)
    as (w1' & Hrun' & Hheap & _ & _ & _ & _ & Hget).
  rewrite Hrun in Hrun'. injection Hrun' as <-.
  apply list_elem_of_lookup_1 in Hin as [i Hi].
  specialize (Hget Hnd i id d Hi). cbn [w0 initial_world heap tasks] in Hget, Hheap.
  cbn [length Nat.add JsMap.get app] in Hget, Hheap.
  assert (Hfresh : fresh now id d = true <-> (age < TaskManager.staleness_window)%Z).
  { unfold fresh. fold t. fold age. apply Z.ltb_lt. }
  assert (Hstale : (TaskManager.staleness_window <= age)%Z ->
                   JsMap.get id (tasks w1) = None).
  { intros Hage. rewrite Hget.
    destruct (fresh now id d) eqn:E; [|done].
    assert (age < TaskManager.staleness_window)%Z by (by apply Hfresh). lia. }
  subst result. rewrite Hload. cbn [fst snd tasks heap] in *.
  split; [done|]. split.
  { intros updated Hu. subst t. unfold reconstruct, Object_assign. simpl.
    by rewrite Hu. }
  split; [|split; [exact Hstale | intros E; apply Hstale; lia]].
  split.
  - intros (a & Ha & _). rewrite Hget in Ha.
    destruct (fresh now id d) eqn:E; [by apply Hfresh | done].
  - intros Hage. apply Hfresh in Hage. rewrite Hget, Hage.
    exists i. split; [done|]. rewrite Hheap.
    rewrite list_lookup_fmap, Hi. done.
Qed.

Lemma loadTasks_staleness_witness :
  JsMap.get "RAGHAV-E2E-AAAA"
    (tasks (snd (TaskManager.loadTasks 86400000
                   (initial_world (Some (JsonObject sample_entries)) []))))
  = None.
Proof.
  refine (proj2 (proj2 (proj2 (proj2
    (loadTasks_staleness sample_entries [] 86400000 "RAGHAV-E2E-AAAA"
       (to_json (sample_task "RAGHAV-E2E-AAAA" false 3 3 0%Z)) _ _)))) _).
  - compute_done.
  - left.
  - reflexivity.
Defined.

(** ** Persistence *)

Lemma saveTasks_result (w : World) :
  TaskManager.saveTasks w =
    (Normal tt,
     if bool_decide (head (write_faults w) = Some true)
     then after_failed_write w else after_write w).
Proof.
  unfold TaskManager.saveTasks, try_catch, bind, gets, TaskManager.fs_writeFile,
    after_write, after_failed_write.
  destruct w as [h m d f c]. cbn [write_faults heap tasks disk console].
  destruct f as [|[|] f]; reflexivity.
Qed.

Section OwnPropertyOrder.
Context {V : Type}.
Implicit Types (l : list (string * V)).

Lemma insert_index_perm i (e : string * V) (s : list (N * (string * V))) :
  (TaskManager.insert_index i e s).*2 ≡ₚ e :: s.*2.
Proof.
  induction s as [|[j e'] s IH]; cbn [TaskManager.insert_index]; [done|].
  destruct (i <? j)%N; [done|].
  cbn [fmap list_fmap snd] in *. rewrite IH. apply Permutation_swap.
Qed.

Lemma Object_fromEntries_perm l :
  (TaskManager.index_entries l).*2 ++ TaskManager.named_entries l ≡ₚ l.
Proof.
  induction l as [|e l IH]; [done|].
  cbn [TaskManager.index_entries TaskManager.named_entries List.filter].
  fold (TaskManager.named_entries l).
  destruct (TaskManager.array_index (fst e)).
  - rewrite insert_index_perm. simpl. by rewrite IH.
  - rewrite <- Permutation_middle. by rewrite IH.
Qed.
End OwnPropertyOrder.

Lemma reconstruct_to_json (id : string) (now : Z) (t : PersistentAutomationState) :
  reconstruct id now (to_json t) = t.
Proof. by destruct t. Qed.

Lemma snapshot_keys (w : World) :
  registry_ok w -> (TaskManager.snapshot w).*1 = JsMap.keys (tasks w).
Proof.
  intros [_ Hrefs]. unfold TaskManager.snapshot, JsMap.keys.
  induction Hrefs as [|[id a] m [t Ht] _ IH]; [done|].
  cbn [omap list_omap fst snd fmap list_fmap] in *. rewrite Ht.
  cbn [fmap list_fmap fst]. f_equal. exact IH.
Qed.

Lemma snapshot_elem (w : World) (id : string) (a : ref)
  (t : PersistentAutomationState) :
  JsMap.get id (tasks w) = Some a -> heap w !! a = Some t ->
  (id, to_json t) ∈ TaskManager.snapshot w.
Proof.
  intros Hget Ht. apply list_elem_of_omap. exists (id, a). split.
  - by apply get_Some_elem.
  - simpl. by rewrite Ht.
Qed.


Lemma two_task_world_ok : registry_ok two_task_world.
Proof.
  split; [compute_done|].
  repeat constructor; eexists; reflexivity.
Defined.


(** ** Discovery of the message input *)

Lemma check_element_acceptable (idx : nat) (selector : string) (el : ElementHandle) :
  check_element idx selector el =
    if acceptable (idx, selector, el) then Some el else None.
Proof.
  unfold check_element, acceptable, interactive, evaluate_isEditable,
    evaluate_elementText.
  destruct (editable_check_throws el); [done|].
  destruct (isEditable el); [|done].
  destruct (text_read_throws el); [done|]. cbn [negb andb].
  destruct (hasKeyword (elementText el)); [done|].
  destruct (idx <? 10); [done|].
  by destruct (is_fallback_selector selector).
Qed.

Lemma scan_elements_first (idx : nat) (selector : string)
  (elements : list ElementHandle) :
  match scan_elements idx selector elements with
  | Some el =>
      exists before after,
        elements = before ++ el :: after
        /\ acceptable (idx, selector, el) = true
        /\ Forall (fun x => acceptable (idx, selector, x) = false) before
  | None => Forall (fun x => acceptable (idx, selector, x) = false) elements
  end.
Proof.
  induction elements as [|el rest IH]; cbn [scan_elements]; [by constructor|].
  rewrite check_element_acceptable.
  destruct (acceptable (idx, selector, el)) eqn:Hacc.
  - exists [], rest. by repeat split.
  - destruct (scan_elements idx selector rest) as [found|].
    + destruct IH as (before & after & -> & Hf & Hb).
      exists (el :: before), after. repeat split; [done|]. by constructor.
    + by constructor.
Qed.

Lemma scan_selectors_first (page : Page) (selectors : list string) :
  forall idx : nat,
  match scan_selectors page idx selectors with
  | Some el =>
      exists before i selector after,
        candidates_from page idx selectors = before ++ (i, selector, el) :: after
        /\ acceptable (i, selector, el) = true
        /\ Forall (fun c => acceptable c = false) before
  | None => Forall (fun c => acceptable c = false) (candidates_from page idx selectors)
  end.
Proof.
  induction selectors as [|selector rest IH]; intros idx;
    cbn [scan_selectors candidates_from]; [by constructor|].
  destruct (query page selector) as [elements|].
  - pose proof (scan_elements_first idx selector elements) as Hel.
    destruct (scan_elements idx selector elements) as [el|].
    + destruct Hel as (before & after & -> & Hacc & Hb).
      exists ((fun x => (idx, selector, x)) <$> before), idx, selector,
        (((fun x => (idx, selector, x)) <$> after)
           ++ candidates_from page (S idx) rest).
      split; [|split; [done|]].
      * rewrite fmap_app, fmap_cons. by rewrite <- app_assoc.
      * by apply Forall_fmap.
    + specialize (IH (S idx)).
      assert (Hhere : Forall (fun c => acceptable c = false)
                        ((fun x => (idx, selector, x)) <$> elements))
        by (by apply Forall_fmap).
      destruct (scan_selectors page (S idx) rest) as [el|].
      * destruct IH as (before & i & s & after & -> & Hacc & Hb).
        exists (((fun x => (idx, selector, x)) <$> elements) ++ before), i, s, after.
        split; [by rewrite <- app_assoc|]. split; [done|].
        by apply Forall_app.
      * by apply Forall_app.
  - specialize (IH (S idx)). cbn [app].
    destruct (scan_selectors page (S idx) rest) as [el|]; exact IH.
Qed.

Lemma candidates_from_sorted (page : Page) (selectors : list string) :
  forall idx : nat,
    StronglySorted by_selector_index (candidates_from page idx selectors)
    /\ Forall (fun c => idx <= c.1.1) (candidates_from page idx selectors).
Proof.
  induction selectors as [|selector rest IH]; intros idx;
    cbn [candidates_from]; [split; constructor|].
  destruct (IH (S idx)) as [Hsorted Hlow].
  set (block := match query page selector with
                | Some elements => (fun el => (idx, selector, el)) <$> elements
                | None => []
                end).
  assert (Hblock : Forall (fun c => c.1.1 = idx) block).
  { unfold block. destruct (query page selector); [|constructor].
    apply Forall_fmap, Forall_forall. by intros. }
  split.
  - apply StronglySorted_app. split; [|split; [|done]].
    + intros c1 c2 H1 H2. unfold by_selector_index.
      rewrite Forall_forall in Hblock, Hlow.
      rewrite (Hblock c1 H1). specialize (Hlow c2 H2). simpl in Hlow. lia.
    + clear -Hblock. induction Hblock as [|c l Hc Hl IHl]; constructor; [done|].
      eapply Forall_impl; [exact Hl|]. intros c' Hc'.
      unfold by_selector_index. simpl in *. lia.
  - apply Forall_app. split.
    + eapply Forall_impl; [exact Hblock|]. intros c Hc. simpl in *. lia.
    + eapply Forall_impl; [exact Hlow|]. intros c Hc. simpl in *. lia.
Qed.

(** C5: the scan goes through the selector patterns first to last and
    through the elements of each in document order.  An interactive element
    whose hint text contains a keyword is accepted under any pattern;
    without a keyword it is accepted under one of the first ten patterns or
    under one of the three generic fallback patterns, and is passed over
    otherwise; an element that is not interactive is passed over.  The
    result is the first acceptable candidate in scan order: every candidate
    met before it, and so every candidate of an earlier pattern, was not
    acceptable; when no candidate is acceptable the result is [null]. *)
Theorem findMessageInput_first_acceptable (page : Page) :
  (forall idx selector el,
      interactive el = true -> hasKeyword (elementText el) = true ->
      check_element idx selector el = Some el)
  /\ (forall idx selector el,
        interactive el = true -> hasKeyword (elementText el) = false ->
        (idx < 10 \/ is_fallback_selector selector = true ->
         check_element idx selector el = Some el)
        /\ (10 <= idx -> is_fallback_selector selector = false ->
            check_element idx selector el = None))
  /\ (forall idx selector el,
        interactive el = false -> check_element idx selector el = None)
  /\ match findMessageInput page with
     | Some el =>
         exists before idx selector after,
           candidates page = before ++ (idx, selector, el) :: after
           /\ acceptable (idx, selector, el) = true
           /\ Forall (fun c => acceptable c = false) before
           /\ (forall c, c ∈ candidates page -> c.1.1 < idx ->
                         acceptable c = false)
     | None => Forall (fun c => acceptable c = false) (candidates page)
     end.
Proof.
  split; [|split; [|split]].
  - intros idx selector el Hi Hk. rewrite check_element_acceptable.
    unfold acceptable. by rewrite Hi, Hk.
  - intros idx selector el Hi Hk. split.
    + intros Hor. rewrite check_element_acceptable. unfold acceptable.
      rewrite Hi, Hk. cbn [andb orb].
      destruct Hor as [Hlt| ->].
      * apply Nat.ltb_lt in Hlt. by rewrite Hlt.
      * by rewrite orb_true_r.
    + intros Hge Hfb. rewrite check_element_acceptable. unfold acceptable.
      rewrite Hi, Hk, Hfb. apply Nat.ltb_ge in Hge. by rewrite Hge.
  - intros idx selector el Hi. rewrite check_element_acceptable.
    unfold acceptable. by rewrite Hi.
  - unfold findMessageInput, candidates.
    pose proof (scan_selectors_first page messageInputSelectors 0) as Hscan.
    destruct (scan_selectors page 0 messageInputSelectors) as [el|]; [|done].
    destruct Hscan as (before & idx & selector & after & Hsplit & Hacc & Hb).
    exists before, idx, selector, after. repeat split; try done.
    intros c Hc Hlt. rewrite Hsplit in Hc.
    destruct (candidates_from_sorted page messageInputSelectors 0) as [Hs _].
    rewrite Hsplit in Hs.
    apply elem_of_app in Hc as [Hc|Hc].
    + rewrite Forall_forall in Hb. by apply Hb.
    + apply StronglySorted_app_1_r, StronglySorted_cons in Hs as [Hs _].
      apply elem_of_cons in Hc as [->|Hc]; [simpl in Hlt; lia|].
      rewrite Forall_forall in Hs. specialize (Hs c Hc).
      unfold by_selector_index in Hs. simpl in *. lia.
Qed.

Lemma findMessageInput_first_acceptable_witness :
  findMessageInput late_fallback_page = Some bare_input
  /\ check_element 11 sel_input_text bare_input = Some bare_input
  /\ check_element 11 "select" bare_input = None.
Proof.
  split; [reflexivity|].
  pose proof (findMessageInput_first_acceptable late_fallback_page)
    as (_ & Hpolicy & _).
  destruct (Hpolicy 11 sel_input_text bare_input eq_refl eq_refl) as [Hyes _].
  destruct (Hpolicy 11 "select" bare_input eq_refl eq_refl) as [_ Hno].
  split; [apply Hyes; by right | apply Hno; [lia | reflexivity]].
Defined.

(** ** Reading a task *)

Lemma saveTasks_frame (w : World) :
  heap (snd (TaskManager.saveTasks w)) = heap w
  /\ tasks (snd (TaskManager.saveTasks w)) = tasks w.
Proof.
  rewrite saveTasks_result. cbn [snd].
  by destruct (bool_decide (head (write_faults w) = Some true)).
Qed.

Lemma getTask_present (w : World) (id : string) (now : Z) (a : ref) :
  JsMap.get id (tasks w) = Some a ->
  TaskManager.getTask id now w =
    (Normal (Some a),
     snd (TaskManager.saveTasks
            (set_heap (alter (set_lastUpdated now) a (heap w)) w))).
Proof.
  intros H. unfold TaskManager.getTask, bind at 1, gets. rewrite H.
  unfold bind, mutate, modify, ret. by rewrite saveTasks_result.
Qed.

Lemma getTask_absent (w : World) (id : string) (now : Z) :
  JsMap.get id (tasks w) = None ->
  TaskManager.getTask id now w = (Normal None, w).
Proof.
  intros H. unfold TaskManager.getTask, bind at 1, gets. by rewrite H.
Qed.

Lemma updateTask_present (w : World) (id : string) (updates : Fields) (now : Z)
  (a : ref) :
  JsMap.get id (tasks w) = Some a ->
  TaskManager.updateTask id updates now w =
    (Normal tt,
     snd (TaskManager.saveTasks
            (set_heap (alter (set_lastUpdated now) a
                         (alter (fun t => Object_assign t updates) a (heap w)))
                      w))).
Proof.
  intros H. unfold TaskManager.updateTask, bind at 1, gets. rewrite H.
  unfold bind, mutate, modify, ret. rewrite !saveTasks_result. reflexivity.
Qed.

Lemma updateTask_absent (w : World) (id : string) (updates : Fields) (now : Z) :
  JsMap.get id (tasks w) = None ->
  TaskManager.updateTask id updates now w = (Normal tt, w).
Proof.
  intros H. unfold TaskManager.updateTask, bind at 1, gets. by rewrite H.
Qed.

(** C9: when the registry has a task under [id], [getTask] returns that
    very object; in the store only that object changes, and only in its
    [lastUpdated], which becomes the current time; the map of the registry
    is unchanged; and the registry is then saved, so that a write that goes
    through leaves the durable file with the registry as it is after the
    refresh.  When the registry has no task under [id], [getTask] returns
    [undefined] and nothing changes: store, map, durable file, pending
    writes and console are the same. *)
Theorem getTask_frame (w : World) (id : string) (now : Z) :
  match JsMap.get id (tasks w) with
  | Some a =>
      let touched := set_heap (alter (set_lastUpdated now) a (heap w)) w in
      let w' := snd (TaskManager.getTask id now w) in
      TaskManager.getTask id now w =
        (Normal (Some a), snd (TaskManager.saveTasks touched))
      /\ tasks w' = tasks w
      /\ (forall t, heap w !! a = Some t ->
            exists t', heap w' !! a = Some t'
                       /\ lastUpdated t' = now /\ same_but_lastUpdated t t')
      /\ (forall b, b <> a -> heap w' !! b = heap w !! b)
      /\ (head (write_faults w) <> Some true ->
          disk w' = Some (JsonObject (TaskManager.Object_fromEntries
                                        (TaskManager.snapshot touched))))
  | None => TaskManager.getTask id now w = (Normal None, w)
  end.
Proof.
  destruct (JsMap.get id (tasks w)) as [a|] eqn:Hget;
    [|by apply getTask_absent].
  intros touched w'. subst w'. rewrite (getTask_present w id now a Hget).
  fold touched. cbn [snd].
  destruct (saveTasks_frame touched) as [Hheap Htasks].
  split; [done|]. split; [by rewrite Htasks|]. split; [|split].
  - intros t Ht. exists (set_lastUpdated now t). rewrite Hheap.
    subst touched. cbn [heap set_heap]. rewrite list_lookup_alter_eq, Ht.
    by repeat split.
  - intros b Hb. rewrite Hheap. subst touched. cbn [heap set_heap].
    by rewrite list_lookup_alter_ne.
  - intros Hw. rewrite saveTasks_result.
    rewrite bool_decide_eq_false_2 by done. done.
Qed.

(** ** No registry operation throws *)

Lemma loadTasks_unusable (w : World) (now : Z) :
  unusable (disk w) ->
  exists e, TaskManager.loadTasks now w =
              (Normal tt, with_console_line (ErrorLoadingTasks e) w).
Proof.
  intros [H|[H|H]];
    unfold TaskManager.loadTasks, try_catch, bind, TaskManager.fs_readFile;
    rewrite H; cbn; eauto.
Qed.

Lemma loadTasks_normal (w : World) (now : Z) :
  fst (TaskManager.loadTasks now w) = Normal tt.
Proof.
  unfold TaskManager.loadTasks, try_catch.
  match goal with |- context [match ?b w with _ => _ end] =>
    destruct (b w) as [[[]|e] w'] end; reflexivity.
Qed.

(** C8: none of [loadTasks], [saveTasks], [addTask], [getTask],
    [updateTask], [removeTask], [getAllTasks] throws, whatever the registry,
    the durable file and the outcome of the writes.  A rejected write is
    caught and logged and changes neither the store, the map nor the file.
    A durable file that is missing, not JSON or [null] is logged and
    recovers no task: store and map stay as they were.  And the map answers
    for what was added even when the write of [addTask] was rejected. *)
Theorem registry_operations_never_throw (w : World) (now : Z) (id : string)
  (a : ref) (updates : Fields) :
  fst (TaskManager.loadTasks now w) = Normal tt
  /\ fst (TaskManager.saveTasks w) = Normal tt
  /\ fst (TaskManager.addTask id a w) = Normal tt
  /\ fst (TaskManager.getTask id now w) = Normal (JsMap.get id (tasks w))
  /\ fst (TaskManager.updateTask id updates now w) = Normal tt
  /\ fst (TaskManager.removeTask id w) = Normal tt
  /\ fst (TaskManager.getAllTasks w) = Normal (tasks w)
  /\ (head (write_faults w) = Some true ->
      snd (TaskManager.saveTasks w) = after_failed_write w)
  /\ (unusable (disk w) ->
      exists e, snd (TaskManager.loadTasks now w) =
                  with_console_line (ErrorLoadingTasks e) w)
  /\ JsMap.get id (tasks (snd (TaskManager.addTask id a w))) = Some a.
Proof.
  split; [apply loadTasks_normal|].
  split; [by rewrite saveTasks_result|].
  split; [unfold TaskManager.addTask, bind, modify; by rewrite saveTasks_result|].
  split.
  { destruct (JsMap.get id (tasks w)) as [b|] eqn:E.
    - by rewrite (getTask_present _ _ _ _ E).
    - by rewrite (getTask_absent _ _ _ E). }
  split.
  { destruct (JsMap.get id (tasks w)) as [b|] eqn:E.
    - by rewrite (updateTask_present _ _ _ _ _ E).
    - by rewrite (updateTask_absent _ _ _ _ E). }
  split;
    [unfold TaskManager.removeTask, bind, modify; by rewrite saveTasks_result|].
  split; [done|].
  split.
  { intros H. rewrite saveTasks_result. by rewrite bool_decide_eq_true_2. }
  split.
  { intros H. destruct (loadTasks_unusable w now H) as [e He].
    exists e. by rewrite He. }
  unfold TaskManager.addTask, bind, modify. rewrite saveTasks_result.
  cbn [snd].
  match goal with |- context [bool_decide ?P] => destruct (bool_decide P) end;
    cbn [tasks after_failed_write after_write set_tasks]; apply get_set_eq.
Qed.

(** ** Stopping a task *)

Lemma saveTasks_heap (w : World) : heap (snd (TaskManager.saveTasks w)) = heap w.
Proof. apply saveTasks_frame. Qed.

Lemma saveTasks_tasks (w : World) : tasks (snd (TaskManager.saveTasks w)) = tasks w.
Proof. apply saveTasks_frame. Qed.

Lemma stopAutomationTask_present (w : World) (id : string) (now : Z) (a : ref) :
  JsMap.get id (tasks w) = Some a ->
  exists w',
    stopAutomationTask id now w = (Normal true, w')
    /\ tasks w' = tasks w
    /\ heap w' = alter (fun t => set_lastUpdated now (set_running false t)) a (heap w).
Proof.
  intros Hget. unfold stopAutomationTask, bind at 1.
  rewrite (getTask_present w id now a Hget).
  set (w1 := snd (TaskManager.saveTasks _)).
  unfold bind at 1, mutate, modify. unfold bind at 1.
  set (w2 := set_heap _ w1).
  assert (Hget2 : JsMap.get id (tasks w2) = Some a).
  { subst w2 w1. cbn [tasks set_heap]. by rewrite saveTasks_tasks. }
  rewrite (updateTask_present w2 id _ now a Hget2).
  eexists. split; [reflexivity|]. split.
  - rewrite saveTasks_tasks. subst w2 w1. cbn [tasks set_heap].
    by rewrite saveTasks_tasks.
  - rewrite saveTasks_heap. subst w2 w1. cbn [heap set_heap].
    rewrite saveTasks_heap. cbn [heap set_heap].
    rewrite !list_alter_alter_eq. apply list_alter_ext; [|done].
    intros [] _. reflexivity.
Qed.




(** ** The running flag goes one way *)

Lemma never_resurrected_refl h : never_resurrected h h.
Proof. intros a t Ht. by exists t. Qed.

Lemma never_resurrected_trans h1 h2 h3 :
  never_resurrected h1 h2 -> never_resurrected h2 h3 -> never_resurrected h1 h3.
Proof.
  intros H12 H23 a t Ht.
  destruct (H12 a t Ht) as (t2 & Ht2 & Hr2).
  destruct (H23 a t2 Ht2) as (t3 & Ht3 & Hr3).
  exists t3. split; [done|]. auto.
Qed.

Lemma never_resurrected_app h l : never_resurrected h (h ++ l).
Proof.
  intros a t Ht. exists t. split; [|done]. by apply lookup_app_l_Some.
Qed.

Lemma never_resurrected_alter h f a :
  keeps_stopped f -> never_resurrected h (alter f a h).
Proof.
  intros Hf b t Ht. destruct (decide (a = b)) as [->|Hne].
  - exists (f t). rewrite list_lookup_alter_eq, Ht. split; [done|]. apply Hf.
  - exists t. by rewrite list_lookup_alter_ne.
Qed.

Section OneWay.
Context {A B : Type}.

Lemma one_way_ret (a : A) : one_way (ret a).
Proof. intros w. apply never_resurrected_refl. Qed.

Lemma one_way_throw e : one_way (@throw A e).
Proof. intros w. apply never_resurrected_refl. Qed.

Lemma one_way_gets (f : World -> A) : one_way (gets f).
Proof. intros w. apply never_resurrected_refl. Qed.

Lemma one_way_read a (f : PersistentAutomationState -> A) : one_way (read a f).
Proof.
  intros w. unfold read. destruct (heap w !! a); apply never_resurrected_refl.
Qed.

Lemma one_way_bind (m : Exec A) (k : A -> Exec B) :
  one_way m -> (forall a, one_way (k a)) -> one_way (bind m k).
Proof.
  intros Hm Hk w. unfold bind. specialize (Hm w).
  destruct (m w) as [[a|e] w1]; cbn [snd] in *; [|done].
  eapply never_resurrected_trans; [exact Hm | apply Hk].
Qed.

Lemma one_way_try_catch (m : Exec A) (h : JsError -> Exec A) :
  one_way m -> (forall e, one_way (h e)) -> one_way (try_catch m h).
Proof.
  intros Hm Hh w. unfold try_catch. specialize (Hm w).
  destruct (m w) as [[a|e] w1]; cbn [snd] in *; [done|].
  eapply never_resurrected_trans; [exact Hm | apply Hh].
Qed.
End OneWay.

Lemma one_way_modify (f : World -> World) :
  (forall w, heap (f w) = heap w) -> one_way (modify f).
Proof.
  intros Hf w. unfold modify. cbn [snd]. rewrite Hf.
  apply never_resurrected_refl.
Qed.

Lemma one_way_mutate a f : keeps_stopped f -> one_way (mutate a f).
Proof.
  intros Hf w. unfold mutate, modify. cbn [snd heap set_heap].
  by apply never_resurrected_alter.
Qed.

Lemma one_way_alloc t : one_way (alloc t).
Proof. intros w. unfold alloc. cbn. apply never_resurrected_app. Qed.

Lemma one_way_if {A} (b : bool) (m1 m2 : Exec A) :
  one_way m1 -> one_way m2 -> one_way (if b then m1 else m2).
Proof. by destruct b. Qed.

Lemma keeps_stopped_set_lastUpdated d : keeps_stopped (set_lastUpdated d).
Proof. by intros []. Qed.

Lemma keeps_stopped_set_messageCount n : keeps_stopped (set_messageCount n).
Proof. by intros []. Qed.

Lemma keeps_stopped_set_messageRotationIndex n :
  keeps_stopped (set_messageRotationIndex n).
Proof. by intros []. Qed.

Lemma keeps_stopped_set_running_false : keeps_stopped (set_running false).
Proof. by intros []. Qed.

Lemma keeps_stopped_assign (u : Fields) :
  f_running u <> Some true -> keeps_stopped (fun t => Object_assign t u).
Proof.
  intros Hu t Ht. unfold Object_assign. cbn [running].
  destruct (f_running u) as [[|]|]; [done | done | exact Ht].
Qed.

Create HintDb one_way.
#[local] Hint Resolve one_way_ret one_way_throw one_way_gets one_way_read
  one_way_mutate one_way_alloc keeps_stopped_set_lastUpdated
  keeps_stopped_set_messageCount keeps_stopped_set_messageRotationIndex
  keeps_stopped_set_running_false : one_way.

Ltac one_way_step :=
  first
    [ solve [auto with one_way]
    | apply one_way_modify; intros ?; reflexivity
    | apply one_way_bind; [|intros ?]
    | apply one_way_try_catch; [|intros ?]
    | apply one_way_if ].

Lemma one_way_saveTasks : one_way TaskManager.saveTasks.
Proof.
  intros w. rewrite saveTasks_heap. apply never_resurrected_refl.
Qed.
#[local] Hint Resolve one_way_saveTasks : one_way.

Lemma one_way_getTask id now : one_way (TaskManager.getTask id now).
Proof.
  unfold TaskManager.getTask. one_way_step; [one_way_step|].
  destruct a; repeat one_way_step.
Qed.

Lemma one_way_updateTask id u now :
  f_running u <> Some true -> one_way (TaskManager.updateTask id u now).
Proof.
  intros Hu. unfold TaskManager.updateTask. one_way_step; [one_way_step|].
  destruct a; repeat one_way_step.
  apply one_way_mutate. by apply keeps_stopped_assign.
Qed.

Lemma one_way_addTask id a : one_way (TaskManager.addTask id a).
Proof. unfold TaskManager.addTask. repeat one_way_step. Qed.

Lemma one_way_removeTask id : one_way (TaskManager.removeTask id).
Proof. unfold TaskManager.removeTask. repeat one_way_step. Qed.

Lemma one_way_load_entries now entries : one_way (TaskManager.load_entries now entries).
Proof.
  induction entries as [|[id d] rest IH]; cbn [TaskManager.load_entries];
    repeat one_way_step; try exact IH.
Qed.

Lemma one_way_loadTasks now : one_way (TaskManager.loadTasks now).
Proof.
  unfold TaskManager.loadTasks, console_log.
  one_way_step; [|repeat one_way_step].
  one_way_step; [unfold TaskManager.fs_readFile; intros w;
                 destruct (disk w); apply never_resurrected_refl|].
  one_way_step; [destruct a; repeat one_way_step|].
  one_way_step; [destruct a0; repeat one_way_step|].
  one_way_step; [apply one_way_load_entries|].
  repeat one_way_step.
Qed.

Lemma one_way_getNextMessage messages obj : one_way (getNextMessage messages obj).
Proof.
  unfold getNextMessage. destruct messages; [one_way_step|].
  destruct obj; repeat one_way_step.
Qed.
#[local] Hint Resolve one_way_getNextMessage one_way_getTask one_way_addTask
  one_way_removeTask one_way_loadTasks : one_way.

Lemma one_way_update_count id n now :
  one_way (TaskManager.updateTask id (only_messageCount n) now).
Proof. by apply one_way_updateTask. Qed.

Lemma one_way_update_stopped id now :
  one_way (TaskManager.updateTask id (only_running false) now).
Proof. by apply one_way_updateTask. Qed.

Lemma one_way_update_final id n now :
  one_way (TaskManager.updateTask id (running_and_messageCount false n) now).
Proof. by apply one_way_updateTask. Qed.
#[local] Hint Resolve one_way_update_count one_way_update_stopped
  one_way_update_final : one_way.

Lemma one_way_loop_head s : one_way (loop_head s).
Proof. unfold loop_head. repeat one_way_step. Qed.

Lemma one_way_after_send message now s : one_way (after_send message now s).
Proof. unfold after_send. repeat one_way_step. Qed.

Lemma one_way_after_discovery found now s : one_way (after_discovery found now s).
Proof.
  unfold after_discovery. destruct found; [apply one_way_loop_head|].
  repeat one_way_step.
Qed.

Lemma one_way_segment sig now s : one_way (segment sig now s).
Proof.
  unfold segment.
  destruct (phase s) as [|[message|]| | | |], sig;
    auto using one_way_loop_head, one_way_after_send, one_way_after_discovery
      with one_way.
Qed.

Lemma one_way_on_fatal s now : one_way (on_fatal s now).
Proof. unfold on_fatal. repeat one_way_step. Qed.

Lemma one_way_on_finally s now : one_way (on_finally s now).
Proof. unfold on_finally. repeat one_way_step. Qed.

Lemma resume_one_way sig now s w :
  never_resurrected (heap w) (heap (snd (resume sig now s w))).
Proof.
  unfold resume. destruct (is_settled (phase s));
    [apply never_resurrected_refl|].
  pose proof (one_way_try_catch (segment sig now s) (fun _ => on_fatal s now)
                (one_way_segment sig now s) (fun _ => one_way_on_fatal s now) w)
    as Hbody.
  destruct (try_catch (segment sig now s) (fun _ => on_fatal s now) w)
    as [[s'|e] w1]; cbn [snd] in Hbody.
  - destruct (is_settled (phase s')); [|done].
    pose proof (one_way_on_finally s' now w1) as Hfin.
    destruct (on_finally s' now w1) as [[?|?] w2]; cbn [snd] in *;
      eapply never_resurrected_trans; eauto.
  - pose proof (one_way_on_finally s now w1) as Hfin.
    destruct (on_finally s now w1) as [[?|?] w2]; cbn [snd] in *;
      eapply never_resurrected_trans; eauto.
Qed.

Lemma one_way_stopAutomationTask id now : one_way (stopAutomationTask id now).
Proof.
  unfold stopAutomationTask. one_way_step; [one_way_step|].
  destruct a; repeat one_way_step.
Qed.

Lemma one_way_route_stop id now : one_way (route_stop_automation id now).
Proof.
  unfold route_stop_automation.
  one_way_step; [apply one_way_stopAutomationTask|].
  destruct a; one_way_step.
Qed.

Lemma one_way_route_get_status id now : one_way (route_get_status id now).
Proof.
  unfold route_get_status. one_way_step; [one_way_step|].
  destruct a; repeat one_way_step.
Qed.

Lemma one_way_route_status_page id now : one_way (route_status_page id now).
Proof.
  unfold route_status_page, TaskManager.getAllTasks.
  one_way_step; [one_way_step|].
  destruct a; [one_way_step|].
  one_way_step; [one_way_step|].
  destruct (find_ignoring_case id a); one_way_step.
Qed.

Lemma respond_one_way handler sys :
  one_way handler ->
  never_resurrected (heap (world sys)) (heap (world (respond handler sys))).
Proof.
  intros H. unfold respond. specialize (H (world sys)).
  by destruct (handler (world sys)) as [[r|e] w].
Qed.

Lemma startAutomationTask_result (w : World) (hash : string) (cfg : Config)
  (now : Z) :
  let id := generateTaskId hash in
  let a := length (heap w) in
  startAutomationTask hash cfg now w =
    (Normal (id, new_session a cfg),
     snd (TaskManager.saveTasks
            (mkWorld (heap w ++ [started_task id cfg now])
                     (JsMap.set id a (tasks w))
                     (disk w) (write_faults w) (console w)))).
Proof.
  intros id a. subst a. destruct w as [h m d f c].
  assert (Halter : forall g x, alter g (length h) (h ++ [x]) = h ++ [g x]).
  { intros g x. rewrite <- (Nat.add_0_r (length h)) at 1.
    by rewrite alter_app_r. }
  unfold startAutomationTask. fold id.
  unfold bind, alloc, mutate, modify, TaskManager.addTask, bind, modify, ret.
  cbn [heap set_heap tasks set_tasks disk write_faults console].
  rewrite !Halter. rewrite !saveTasks_result. reflexivity.
Qed.

Lemma step_one_way (ev : Event) (sys : System) :
  never_resurrected (heap (world sys)) (heap (world (step ev sys))).
Proof.
  destruct ev as [now|hash cfg now|id now|id now|id now|sid sig now|id];
    cbn [step].
  - apply one_way_loadTasks.
  - rewrite startAutomationTask_result. cbn [world].
    rewrite saveTasks_heap. cbn [heap]. apply never_resurrected_app.
  - apply respond_one_way, one_way_route_stop.
  - apply respond_one_way, one_way_route_get_status.
  - apply respond_one_way, one_way_route_status_page.
  - destruct (sessions sys !! sid) as [s|]; [|apply never_resurrected_refl].
    pose proof (resume_one_way sig now s (world sys)) as H.
    by destruct (resume sig now s (world sys)) as [s' w'].
  - apply one_way_removeTask.
Qed.

(** C7: a task object is built with [running] false; [startAutomationTask]
    sets the flag on the new object and then inserts it, so the registry
    receives it under the new identifier with [running] true, at a reference
    that did not exist before.  From then on, whatever requests arrive and
    however the sessions proceed (load completion, start, stop, poll, status
    page, any session resumed with any outcome, removal), every object stays
    in the store and an object whose [running] is false keeps it false. *)
Theorem running_flag_is_one_way (evs : list Event) (sys : System) :
  (forall id now, running (new_PersistentAutomationState id now) = false)
  /\ (forall hash cfg now,
        let w := world sys in
        let id := generateTaskId hash in
        let a := length (heap w) in
        let w' := snd (startAutomationTask hash cfg now w) in
        fst (startAutomationTask hash cfg now w) = Normal (id, new_session a cfg)
        /\ heap w !! a = None
        /\ heap w' !! a = Some (started_task id cfg now)
        /\ running (started_task id cfg now) = true
        /\ JsMap.get id (tasks w') = Some a)
  /\ never_resurrected (heap (world sys)) (heap (world (run evs sys))).
Proof.
  split; [done|]. split.
  - intros hash cfg now w id a w'. subst w'.
    rewrite startAutomationTask_result. fold w id a. cbn [fst snd].
    rewrite saveTasks_heap, saveTasks_tasks. cbn [heap tasks].
    split; [done|]. split; [by apply lookup_ge_None_2|].
    split; [|split; [done | apply get_set_eq]].
    subst a. rewrite lookup_app_r, Nat.sub_diag by lia. done.
  - revert sys. induction evs as [|ev evs IH]; intros sys; cbn [run fold_left].
    + apply never_resurrected_refl.
    + eapply never_resurrected_trans; [apply step_one_way | apply IH].
Qed.

(** ** The sending loop *)

Lemma updateTask_same_count (w : World) (id : string) (n : nat) (now : Z)
  (obj : ref) (t : PersistentAutomationState) :
  heap w !! obj = Some t -> messageCount t = n ->
  exists w' t',
    TaskManager.updateTask id (only_messageCount n) now w = (Normal tt, w')
    /\ heap w' !! obj = Some t'
    /\ same_but_lastUpdated t t'.
Proof.
  intros Ht Hn. destruct (JsMap.get id (tasks w)) as [a|] eqn:Hget.
  - rewrite (updateTask_present w id _ now a Hget).
    eexists. destruct (decide (a = obj)) as [->|Hne].
    + eexists. split; [reflexivity|]. rewrite saveTasks_heap. cbn [heap set_heap].
      rewrite list_alter_alter_eq, list_lookup_alter_eq, Ht. split; [done|].
      destruct t. simpl in *. by subst.
    + exists t. split; [reflexivity|]. rewrite saveTasks_heap. cbn [heap set_heap].
      rewrite !list_lookup_alter_ne by done. by repeat split.
  - rewrite (updateTask_absent w id _ now Hget). exists w, t. by repeat split.
Qed.

Lemma compose_Some (prefix message : string) :
  exists m, compose prefix (Some message) = Some m.
Proof. unfold compose. destruct (Str.truthy prefix); eauto. Qed.

Lemma rotation_lookup (T : list string) (c : nat) :
  T <> [] -> exists m, T !! (c mod length T) = Some m.
Proof.
  intros HT. apply lookup_lt_is_Some, Nat.mod_upper_bound.
  destruct T; simpl; [done | lia].
Qed.

Lemma resume_waiting (now : Z) (s : Session) (w : World)
  (t : PersistentAutomationState) :
  waiting s -> heap w !! automationStateObj s = Some t -> running t = true ->
  messagesList s <> [] ->
  resume Resolved now s w =
    (with_phase (Sending (Some (composed (session_config s) (messagesList s)
                                         (messageRotationIndex t)))) s,
     set_heap (<[automationStateObj s :=
                  set_messageRotationIndex (messageRotationIndex t + 1) t]>
                 (heap w)) w).
Proof.
  intros Hwait Ht Hrun HT.
  assert (Hseg : segment Resolved now s = loop_head s).
  { unfold segment. by destruct Hwait as [-> | ->]. }
  assert (Hns : is_settled (phase s) = false) by (by destruct Hwait as [-> | ->]).
  unfold resume. rewrite Hns, Hseg.
  unfold try_catch, loop_head, bind at 1, read. rewrite Ht, Hrun.
  unfold bind. rewrite (getNextMessage_step _ _ _ t HT Ht). unfold ret.
  destruct (rotation_lookup (messagesList s) (messageRotationIndex t) HT)
    as [m Hm].
  unfold composed. rewrite Hm.
  destruct (compose_Some (namePrefix (session_config s)) m) as [msg Hmsg].
  rewrite Hmsg. reflexivity.
Qed.

Lemma resume_send_rejected (now : Z) (s : Session) (w : World) (e : JsError)
  (msg : option string) :
  phase s = Sending msg ->
  resume (Rejected e) now s w = (with_phase Recovery s, w).
Proof.
  intros Hph. unfold resume, segment, try_catch. rewrite Hph.
  by destruct msg.
Qed.

Lemma bind_normal {A B} (m : Exec A) (k : A -> Exec B) (w w1 : World) (a : A) :
  m w = (Normal a, w1) -> bind m k w = k a w1.
Proof. intros H. unfold bind. by rewrite H. Qed.

Lemma bind_throw {A B} (m : Exec A) (k : A -> Exec B) (w w1 : World) (e : JsError) :
  m w = (Throw e, w1) -> bind m k w = (Throw e, w1).
Proof. intros H. unfold bind. by rewrite H. Qed.

Lemma read_some {A} (a : ref) (f : PersistentAutomationState -> A) (w : World)
  (t : PersistentAutomationState) :
  heap w !! a = Some t -> read a f w = (Normal (f t), w).
Proof. intros H. unfold read. by rewrite H. Qed.

Lemma after_send_spec (now : Z) (s : Session) (w : World)
  (t : PersistentAutomationState) (message : string) :
  heap w !! automationStateObj s = Some t ->
  exists w' t',
    after_send message now s w =
      (Normal (mkSession (automationStateObj s) (session_config s) Delay
                 (messagesList s) (messagesSent s + 1)
                 (dispatched s ++ [message])), w')
    /\ heap w' !! automationStateObj s = Some t'
    /\ same_but_lastUpdated (set_messageCount (messagesSent s + 1) t) t'.
Proof.
  intros Ht. unfold after_send, try_catch.
  set (obj := automationStateObj s) in *. set (sent := messagesSent s + 1).
  set (w2 := set_heap (alter (set_messageCount sent) obj (heap w)) w).
  assert (Ht2 : heap w2 !! obj = Some (set_messageCount sent t)).
  { subst w2. cbn [heap set_heap]. by rewrite list_lookup_alter_eq, Ht. }
  destruct (updateTask_same_count w2 (taskId (set_messageCount sent t)) sent now
              obj (set_messageCount sent t) Ht2 eq_refl)
    as (w' & t' & Hup & Ht' & Hsame).
  exists w', t'. split; [|done].
  rewrite (bind_normal _ _ w w2 tt) by reflexivity.
  rewrite (bind_normal _ _ w2 w2 _ (read_some obj taskId w2 _ Ht2)).
  rewrite (bind_normal _ _ w2 w' tt Hup). reflexivity.
Qed.

Lemma resume_send_resolved (now : Z) (s : Session) (w : World)
  (t : PersistentAutomationState) (message : string) :
  phase s = Sending (Some message) ->
  heap w !! automationStateObj s = Some t ->
  exists w' t',
    resume Resolved now s w =
      (mkSession (automationStateObj s) (session_config s) Delay
                 (messagesList s) (messagesSent s + 1)
                 (dispatched s ++ [message]), w')
    /\ heap w' !! automationStateObj s = Some t'
    /\ same_but_lastUpdated (set_messageCount (messagesSent s + 1) t) t'.
Proof.
  intros Hph Ht.
  destruct (after_send_spec now s w t message Ht) as (w' & t' & Hsend & Hrest).
  exists w', t'. split; [|done].
  unfold resume, segment. rewrite Hph. cbn [is_settled].
  unfold try_catch. rewrite Hsend. reflexivity.
Qed.

Lemma attempt_spec (now : Z) (sent : bool) (s : Session) (w : World)
  (t : PersistentAutomationState) :
  waiting s -> heap w !! automationStateObj s = Some t -> running t = true ->
  messagesList s <> [] ->
  exists s' w' t',
    attempt now sent (s, w) = (s', w')
    /\ waiting s'
    /\ automationStateObj s' = automationStateObj s
    /\ session_config s' = session_config s
    /\ messagesList s' = messagesList s
    /\ heap w' !! automationStateObj s = Some t'
    /\ running t' = true
    /\ messageRotationIndex t' = messageRotationIndex t + 1
    /\ (if sent
        then phase s' = Delay
             /\ messagesSent s' = messagesSent s + 1
             /\ messageCount t' = messagesSent s + 1
             /\ dispatched s' =
                  dispatched s ++ [composed (session_config s) (messagesList s)
                                            (messageRotationIndex t)]
        else phase s' = Recovery
             /\ messagesSent s' = messagesSent s
             /\ messageCount t' = messageCount t
             /\ dispatched s' = dispatched s).
Proof.
  intros Hwait Ht Hrun HT. unfold attempt. cbn [fst snd].
  rewrite (resume_waiting now s w t Hwait Ht Hrun HT).
  set (msg := composed _ _ _).
  set (s1 := with_phase (Sending (Some msg)) s).
  set (t1 := set_messageRotationIndex (messageRotationIndex t + 1) t).
  set (w1 := set_heap (<[automationStateObj s := t1]> (heap w)) w).
  assert (Ht1 : heap w1 !! automationStateObj s1 = Some t1).
  { subst w1 s1. cbn. apply list_lookup_insert_eq. by eapply lookup_lt_Some. }
  destruct sent.
  - destruct (resume_send_resolved now s1 w1 t1 msg eq_refl Ht1)
      as (w' & t' & Hres & Ht' & Hsame).
    rewrite Hres. eexists _, w', t'. split; [reflexivity|].
    destruct Hsame as (Hid & Hr & Hc & _ & _ & _ & Hi).
    cbn in *. repeat split; try done.
    + by left.
    + by rewrite Hr.
  - rewrite (resume_send_rejected now s1 w1 EIO (Some msg) eq_refl).
    eexists _, w1, t1. split; [reflexivity|].
    cbn in *. repeat split; try done. by right.
Qed.

(** C1 (as amended): in a run of the sending loop that is not stopped, a
    failed attempt changes neither [messageCount] nor the list of messages
    dispatched, but the rotation index was advanced when the attempt's
    message was composed and is not restored: attempt number [i] composes
    from cursor [c + i] whatever became of the attempts before it.  After
    any sequence of attempts the rotation index has grown by the number of
    attempts, and [messageCount] by the number of messages dispatched. *)
Theorem rotation_advances_per_attempt (now : Z) (outcomes : list bool)
  (s : Session) (w : World) (t : PersistentAutomationState) :
  waiting s -> heap w !! automationStateObj s = Some t -> running t = true ->
  messagesList s <> [] -> messageCount t = messagesSent s ->
  exists s' w' t',
    attempts now outcomes (s, w) = (s', w')
    /\ heap w' !! automationStateObj s = Some t'
    /\ messageRotationIndex t' = messageRotationIndex t + length outcomes
    /\ messageCount t' = messageCount t + successes outcomes
    /\ messagesSent s' = messageCount t'
    /\ dispatched s' =
         dispatched s ++ dispatched_from (session_config s) (messagesList s)
                                         (messageRotationIndex t) outcomes
    /\ waiting s'
    /\ running t' = true.
Proof.
  revert s w t.
  induction outcomes as [|sent rest IH]; intros s w t Hwait Ht Hrun HT Hcount.
  - exists s, w, t. cbn. rewrite app_nil_r, !Nat.add_0_r. by repeat split.
  - destruct (attempt_spec now sent s w t Hwait Ht Hrun HT)
      as (s1 & w1 & t1 & Hatt & Hwait1 & Hobj & Hcfg & Hlist & Ht1 & Hrun1
          & Hidx & Hsent).
    assert (Hcount1 : messageCount t1 = messagesSent s1
                      /\ messageCount t1 =
                           messageCount t + (if sent then 1 else 0)
                      /\ dispatched s1 =
                           dispatched s ++
                           (if sent then [composed (session_config s)
                                            (messagesList s)
                                            (messageRotationIndex t)] else [])).
    { destruct sent.
      - destruct Hsent as (_ & Hs & Hc & Hd). rewrite Hs, Hc, Hd, Hcount. done.
      - destruct Hsent as (_ & Hs & Hc & Hd).
        rewrite Hs, Hc, Hd, Hcount, app_nil_r. by rewrite Nat.add_0_r. }
    destruct Hcount1 as (Hc1 & Hc2 & Hd1).
    rewrite <- Hobj in Ht1. rewrite <- Hlist in HT.
    destruct (IH s1 w1 t1 Hwait1 Ht1 Hrun1 HT Hc1)
      as (s' & w' & t' & Hrun' & Ht' & Hidx' & Hcnt' & Hsent' & Hdisp' & Hw' & Hr').
    exists s', w', t'. cbn [attempts fold_left]. fold (attempts now rest).
    rewrite Hatt. split; [exact Hrun'|].
    rewrite Hobj in Ht'. split; [exact Ht'|].
    split; [rewrite Hidx', Hidx; cbn [length]; lia|].
    split.
    { rewrite Hcnt', Hc2. unfold successes. cbn [List.filter].
      destruct sent; cbn [length]; lia. }
    split; [exact Hsent'|].
    split; [|by split].
    rewrite Hdisp', Hd1, Hcfg, Hlist, Hidx. cbn [dispatched_from].
    by rewrite <- app_assoc.
Qed.

Lemma rotation_advances_per_attempt_witness :
  exists s' w' t',
    attempts 3000 [false; true; true] (waiting_session, sample_world) = (s', w')
    /\ heap w' !! 0 = Some t'
    /\ messageRotationIndex t' = 1 + 3
    /\ messageCount t' = 0 + 2
    /\ messagesSent s' = messageCount t'
    /\ dispatched s' = [] ++ ["Hi"; "Bye"]
    /\ waiting s'
    /\ running t' = true.
Proof.
  exact (rotation_advances_per_attempt 3000 [false; true; true]
           waiting_session sample_world
           (sample_task sample_id true 0 1 2000%Z)
           (or_intror eq_refl) eq_refl eq_refl ltac:(discriminate) eq_refl).
Defined.

(** Counterexample to C1 as stated.  A task with the templates Hi and Bye
    composes Hi for its first attempt, from cursor 0.  The send throws.
    After the recovery delay the retry composes Bye: the cursor is 2, not 1,
    although no message was dispatched and [messageCount] is still 0. *)
Lemma failed_attempt_advances_cursor :
  (phase <$> sessions first_attempt !! 0) = Some (Sending (Some "Hi"))
  /\ (messageRotationIndex <$> heap (world first_attempt) !! 0) = Some 1
  /\ (phase <$> sessions retry_after_failure !! 0) = Some (Sending (Some "Bye"))
  /\ (messageRotationIndex <$> heap (world retry_after_failure) !! 0) = Some 2
  /\ (messageCount <$> heap (world retry_after_failure) !! 0) = Some 0
  /\ (dispatched <$> sessions retry_after_failure !! 0) = Some [].
Proof. vm_compute. repeat split. Qed.

(** ** Polling *)

(** C6, the code at the failing input: the registry holds a running task
    under [sample_id]; polled with the same identifier in lower case,
    GET /api/get_status answers not-found, and GET /status finds the task by
    its case-insensitive search and then throws on the assignment to the
    constant [task]; only the exact identifier gets the status. *)
Lemma poll_in_other_letter_case :
  Str.toUpperCase sample_id_lower = Str.toUpperCase sample_id
  /\ route_get_status sample_id_lower 3000 sample_world
     = (Normal TaskNotFoundJson, sample_world)
  /\ find_ignoring_case sample_id_lower (tasks sample_world) = Some 0
  /\ route_status_page sample_id_lower 3000 sample_world
     = (Throw TypeError, sample_world)
  /\ fst (route_get_status sample_id 3000 sample_world)
     = Normal (StatusJson "running" sample_id).
Proof. vm_compute. repeat split. Qed.

(** * Further properties of the code *)

(** ** [updateTask], [removeTask], [addTask] *)

(** [updateTask] on an identifier the registry does not hold does nothing:
    no object is touched, nothing is written, nothing is logged.  On a held
    identifier it merges the given fields into that object only, then sets
    [lastUpdated] to the current time, also when the update carries a
    [lastUpdated] of its own; the map is unchanged and the registry is
    saved. *)
Theorem updateTask_merges_and_touches (w : World) (id : string)
  (updates : Fields) (now : Z) :
  match JsMap.get id (tasks w) with
  | Some a =>
      let w' := snd (TaskManager.updateTask id updates now w) in
      tasks w' = tasks w
      /\ heap w' !! a =
           (fun t => set_lastUpdated now (Object_assign t updates)) <$> heap w !! a
      /\ (forall t', heap w' !! a = Some t' -> lastUpdated t' = now)
      /\ (forall b, b <> a -> heap w' !! b = heap w !! b)
      /\ w' = snd (TaskManager.saveTasks (set_heap (heap w') w))
  | None => TaskManager.updateTask id updates now w = (Normal tt, w)
  end.
Proof.
  destruct (JsMap.get id (tasks w)) as [a|] eqn:Hget;
    [|by apply updateTask_absent].
  intros w'. subst w'. rewrite (updateTask_present w id updates now a Hget).
  cbn [snd]. rewrite saveTasks_tasks, saveTasks_heap. cbn [heap tasks set_heap].
  assert (Hlook : alter (set_lastUpdated now) a
                    (alter (fun t => Object_assign t updates) a (heap w)) !! a
                  = (fun t => set_lastUpdated now (Object_assign t updates))
                      <$> heap w !! a).
  { rewrite list_alter_alter_eq, list_lookup_alter_eq. done. }
  split; [done|]. split; [exact Hlook|]. split; [|split].
  - intros t'. rewrite Hlook. destruct (heap w !! a); [|done].
    by intros [= <-].
  - intros b Hb. by rewrite !list_lookup_alter_ne.
  - reflexivity.
Qed.

(** After [removeTask] the identifier is unknown to the registry while every
    other identifier refers to what it referred to before; the objects
    themselves stay in the store as they were, so a session that holds one
    goes on working on it.  The registry is saved even when the identifier
    was not there. *)
Theorem removeTask_forgets_only_the_key (w : World) (id : string) :
  NoDup (JsMap.keys (tasks w)) ->
  let w' := snd (TaskManager.removeTask id w) in
  fst (TaskManager.removeTask id w) = Normal tt
  /\ JsMap.get id (tasks w') = None
  /\ (forall k, k <> id -> JsMap.get k (tasks w') = JsMap.get k (tasks w))
  /\ heap w' = heap w
  /\ w' = snd (TaskManager.saveTasks (set_tasks (JsMap.delete id (tasks w)) w)).
Proof.
  intros Hnd w'. subst w'.
  unfold TaskManager.removeTask, bind, modify. rewrite saveTasks_result.
  cbn [fst snd].
  set (w1 := set_tasks (JsMap.delete id (tasks w)) w).
  assert (Htasks : tasks (if bool_decide (head (write_faults w1) = Some true)
                          then after_failed_write w1 else after_write w1)
                   = JsMap.delete id (tasks w)).
  { by destruct (bool_decide _). }
  assert (Hheap : heap (if bool_decide (head (write_faults w1) = Some true)
                        then after_failed_write w1 else after_write w1)
                  = heap w).
  { by destruct (bool_decide _). }
  rewrite Htasks, Hheap. split; [done|].
  split; [|split; [|split; [done|]]].
  - clear -Hnd. induction (tasks w) as [|[k v] m IH]; [done|].
    cbn [JsMap.delete]. apply NoDup_cons in Hnd as [Hk Hnd].
    destruct (String.eqb_spec k id) as [->|Hne].
    + by apply get_None_not_key.
    + cbn [JsMap.get]. destruct (String.eqb_spec k id); [done | by apply IH].
  - intros k Hk. clear -Hk. induction (tasks w) as [|[k0 v] m IH]; [done|].
    cbn [JsMap.delete JsMap.get].
    destruct (String.eqb_spec k0 id) as [->|Hne].
    + destruct (String.eqb_spec id k); [congruence | done].
    + cbn [JsMap.get]. destruct (String.eqb_spec k0 k); [done | exact IH].
  - reflexivity.
Qed.

(** ** Every registry the program reaches is well formed *)

Section Preserves.
Context (I : World -> Prop).

Lemma preserves_ret {A} (a : A) : preserves I (ret a).
Proof. by intros w. Qed.

Lemma preserves_throw {A} e : preserves I (@throw A e).
Proof. by intros w. Qed.

Lemma preserves_gets {A} (f : World -> A) : preserves I (gets f).
Proof. by intros w. Qed.

Lemma preserves_read {A} a (f : PersistentAutomationState -> A) :
  preserves I (read a f).
Proof. intros w Hw. unfold read. by destruct (heap w !! a). Qed.

Lemma preserves_bind {A B} (m : Exec A) (k : A -> Exec B) :
  preserves I m -> (forall a, preserves I (k a)) -> preserves I (bind m k).
Proof.
  intros Hm Hk w Hw. unfold bind. specialize (Hm w Hw).
  destruct (m w) as [[a|e] w1]; cbn [snd] in *; [by apply Hk | done].
Qed.

Lemma preserves_try_catch {A} (m : Exec A) (h : JsError -> Exec A) :
  preserves I m -> (forall e, preserves I (h e)) -> preserves I (try_catch m h).
Proof.
  intros Hm Hh w Hw. unfold try_catch. specialize (Hm w Hw).
  destruct (m w) as [[a|e] w1]; cbn [snd] in *; [done | by apply Hh].
Qed.

Lemma preserves_if {A} (b : bool) (m1 m2 : Exec A) :
  preserves I m1 -> preserves I m2 -> preserves I (if b then m1 else m2).
Proof. by destruct b. Qed.
End Preserves.

Lemma registry_ok_ext (w w' : World) :
  length (heap w) <= length (heap w') -> tasks w' = tasks w ->
  registry_ok w -> registry_ok w'.
Proof.
  intros Hlen Htasks [Hnd Hrefs]. split; rewrite Htasks; [done|].
  eapply Forall_impl; [exact Hrefs|]. intros [k a] Ha. cbn [snd] in *.
  apply lookup_lt_is_Some in Ha. apply lookup_lt_is_Some. lia.
Qed.

Lemma keys_set {V} (m : list (string * V)) (k : string) (v : V) :
  JsMap.keys (JsMap.set k v m) =
    if bool_decide (k ∈ JsMap.keys m) then JsMap.keys m else JsMap.keys m ++ [k].
Proof.
  unfold JsMap.keys. induction m as [|[k0 v0] m IH]; [done|].
  cbn [JsMap.set fmap list_fmap fst].
  destruct (String.eqb_spec k0 k) as [->|Hne].
  - cbn [fmap list_fmap fst]. rewrite bool_decide_eq_true_2; [done | left].
  - cbn [fmap list_fmap fst]. rewrite IH.
    destruct (bool_decide (k ∈ fst <$> m)) eqn:E.
    + apply bool_decide_eq_true_1 in E.
      rewrite bool_decide_eq_true_2; [done | by right].
    + apply bool_decide_eq_false_1 in E.
      rewrite bool_decide_eq_false_2; [done|].
      rewrite elem_of_cons. intros [?|?]; congruence.
Qed.

Lemma registry_ok_set (w : World) (k : string) (a : nat) :
  registry_ok w -> is_Some (heap w !! a) ->
  registry_ok (set_tasks (JsMap.set k a (tasks w)) w).
Proof.
  intros [Hnd Hrefs] Ha. split; cbn [tasks heap set_tasks].
  - rewrite keys_set. destruct (bool_decide (k ∈ JsMap.keys (tasks w))) eqn:E;
      [done|].
    apply bool_decide_eq_false_1 in E.
    apply NoDup_app. split; [done|]. split; [|apply NoDup_singleton].
    intros x Hx Hx'. apply list_elem_of_singleton in Hx'. by subst.
  - clear Hnd. induction Hrefs as [|[k0 a0] m H0 Hm IH]; cbn [JsMap.set].
    + by repeat constructor.
    + destruct (String.eqb k0 k); constructor; done.
Qed.

Lemma registry_ok_delete (w : World) (k : string) :
  registry_ok w -> registry_ok (set_tasks (JsMap.delete k (tasks w)) w).
Proof.
  intros [Hnd Hrefs]. split; cbn [tasks heap set_tasks].
  - clear Hrefs. unfold JsMap.keys in *.
    induction (tasks w) as [|[k0 a0] m IH]; [done|].
    cbn [JsMap.delete fmap list_fmap fst] in *.
    apply NoDup_cons in Hnd as [Hk0 Hnd].
    destruct (String.eqb_spec k0 k) as [->|Hne]; [done|].
    cbn [fmap list_fmap fst]. apply NoDup_cons. split; [|by apply IH].
    intros Hin. apply Hk0. clear -Hin.
    induction m as [|[k1 a1] m IH]; [done|].
    cbn [JsMap.delete fmap list_fmap fst] in *.
    destruct (String.eqb k1 k); [by right|].
    cbn [fmap list_fmap fst] in Hin.
    apply elem_of_cons in Hin as [->|Hin]; [left | right; by apply IH].
  - clear Hnd. induction Hrefs as [|[k0 a0] m H0 Hm IH]; cbn [JsMap.delete];
      [done|].
    destruct (String.eqb k0 k); [done | by constructor].
Qed.

Lemma preserves_ok_saveTasks : preserves registry_ok TaskManager.saveTasks.
Proof.
  intros w Hw. eapply registry_ok_ext; [| |exact Hw].
  - by rewrite saveTasks_heap.
  - by rewrite saveTasks_tasks.
Qed.

Lemma preserves_ok_mutate a f : preserves registry_ok (mutate a f).
Proof.
  intros w Hw. eapply registry_ok_ext; [| |exact Hw]; cbn; [|done].
  by rewrite length_alter.
Qed.

Lemma preserves_ok_alloc t : preserves registry_ok (alloc t).
Proof.
  intros w Hw. eapply registry_ok_ext; [| |exact Hw]; cbn; [|done].
  rewrite length_app. lia.
Qed.

Lemma preserves_ok_console_log l : preserves registry_ok (console_log l).
Proof. intros w Hw. by eapply registry_ok_ext; [| |exact Hw]. Qed.

Create HintDb registry_ok.
#[local] Hint Resolve preserves_ret preserves_throw preserves_gets
  preserves_read preserves_ok_saveTasks preserves_ok_mutate
  preserves_ok_alloc preserves_ok_console_log : registry_ok.

Ltac preserves_step :=
  first
    [ solve [auto with registry_ok]
    | apply preserves_bind; [|intros ?]
    | apply preserves_try_catch; [|intros ?]
    | apply preserves_if ].

Lemma preserves_ok_getTask id now : preserves registry_ok (TaskManager.getTask id now).
Proof.
  unfold TaskManager.getTask. preserves_step; [preserves_step|].
  destruct a; repeat preserves_step.
Qed.

Lemma preserves_ok_updateTask id u now :
  preserves registry_ok (TaskManager.updateTask id u now).
Proof.
  unfold TaskManager.updateTask. preserves_step; [preserves_step|].
  destruct a; repeat preserves_step.
Qed.

Lemma preserves_ok_removeTask id : preserves registry_ok (TaskManager.removeTask id).
Proof.
  unfold TaskManager.removeTask. preserves_step; [|preserves_step].
  intros w Hw. by apply registry_ok_delete.
Qed.

Lemma addTask_ok (w : World) (id : string) (a : nat) :
  registry_ok w -> is_Some (heap w !! a) ->
  registry_ok (snd (TaskManager.addTask id a w)).
Proof.
  intros Hw Ha. unfold TaskManager.addTask, bind, modify.
  pose proof (preserves_ok_saveTasks _ (registry_ok_set w id a Hw Ha)) as H.
  by destruct (TaskManager.saveTasks _) as [[[]|e] w'].
Qed.

Lemma preserves_ok_load_entries now entries :
  preserves registry_ok (TaskManager.load_entries now entries).
Proof.
  induction entries as [|[id d] rest IH]; intros w Hw;
    cbn [TaskManager.load_entries]; [done|].
  unfold bind at 1, alloc. unfold bind at 1, read. cbn [heap set_heap].
  rewrite lookup_app_r, Nat.sub_diag by lia. cbn [lookup list_lookup].
  set (w0 := set_heap _ w).
  assert (Hw0 : registry_ok w0).
  { eapply registry_ok_ext; [| |exact Hw]; cbn; [|done].
    rewrite length_app. lia. }
  assert (Hnew : is_Some (heap w0 !! length (heap w))).
  { apply lookup_lt_is_Some. subst w0. cbn. rewrite length_app. simpl. lia. }
  unfold bind. destruct (_ <? _)%Z.
  - unfold modify. apply IH.
    exact (registry_ok_set w0 id (length (heap w)) Hw0 Hnew).
  - unfold ret. by apply IH.
Qed.

Lemma preserves_ok_loadTasks now : preserves registry_ok (TaskManager.loadTasks now).
Proof.
  unfold TaskManager.loadTasks.
  preserves_step; [|repeat preserves_step].
  preserves_step; [unfold TaskManager.fs_readFile; intros w Hw;
                   by destruct (disk w)|].
  preserves_step;
    [destruct a; cbn [TaskManager.JSON_parse]; repeat preserves_step|].
  preserves_step;
    [destruct a0; cbn [TaskManager.Object_entries]; repeat preserves_step|].
  preserves_step; [apply preserves_ok_load_entries|].
  repeat preserves_step.
Qed.

Lemma preserves_ok_getNextMessage messages obj :
  preserves registry_ok (getNextMessage messages obj).
Proof.
  unfold getNextMessage. destruct messages; [preserves_step|].
  destruct obj; repeat preserves_step.
Qed.
#[local] Hint Resolve preserves_ok_getTask preserves_ok_updateTask
  preserves_ok_removeTask preserves_ok_loadTasks preserves_ok_getNextMessage
  : registry_ok.

Lemma preserves_ok_loop_head s : preserves registry_ok (loop_head s).
Proof. unfold loop_head. repeat preserves_step. Qed.

Lemma preserves_ok_after_send message now s :
  preserves registry_ok (after_send message now s).
Proof. unfold after_send. repeat preserves_step. Qed.

Lemma preserves_ok_after_discovery found now s :
  preserves registry_ok (after_discovery found now s).
Proof.
  unfold after_discovery. destruct found; [apply preserves_ok_loop_head|].
  repeat preserves_step.
Qed.

Lemma preserves_ok_segment sig now s : preserves registry_ok (segment sig now s).
Proof.
  unfold segment.
  destruct (phase s) as [|[message|]| | | |], sig;
    auto using preserves_ok_loop_head, preserves_ok_after_send,
      preserves_ok_after_discovery with registry_ok.
Qed.

Lemma preserves_ok_on_fatal s now : preserves registry_ok (on_fatal s now).
Proof. unfold on_fatal. repeat preserves_step. Qed.

Lemma preserves_ok_on_finally s now : preserves registry_ok (on_finally s now).
Proof. unfold on_finally. repeat preserves_step. Qed.

Lemma resume_ok sig now s w :
  registry_ok w -> registry_ok (snd (resume sig now s w)).
Proof.
  intros Hw. unfold resume. destruct (is_settled (phase s)); [done|].
  pose proof (preserves_try_catch registry_ok (segment sig now s)
                (fun _ => on_fatal s now)
                (preserves_ok_segment sig now s)
                (fun _ => preserves_ok_on_fatal s now) w Hw) as Hbody.
  destruct (try_catch (segment sig now s) (fun _ => on_fatal s now) w)
    as [[s'|e] w1]; cbn [snd] in Hbody.
  - destruct (is_settled (phase s')); [|done].
    pose proof (preserves_ok_on_finally s' now w1 Hbody) as Hfin.
    by destruct (on_finally s' now w1) as [[?|?] w2].
  - pose proof (preserves_ok_on_finally s now w1 Hbody) as Hfin.
    by destruct (on_finally s now w1) as [[?|?] w2].
Qed.

Lemma preserves_ok_stopAutomationTask id now :
  preserves registry_ok (stopAutomationTask id now).
Proof.
  unfold stopAutomationTask. preserves_step; [preserves_step|].
  destruct a; repeat preserves_step.
Qed.

Lemma preserves_ok_route_stop id now :
  preserves registry_ok (route_stop_automation id now).
Proof.
  unfold route_stop_automation.
  preserves_step; [apply preserves_ok_stopAutomationTask|].
  destruct a; preserves_step.
Qed.

Lemma preserves_ok_route_get_status id now :
  preserves registry_ok (route_get_status id now).
Proof.
  unfold route_get_status. preserves_step; [preserves_step|].
  destruct a; repeat preserves_step.
Qed.

Lemma preserves_ok_route_status_page id now :
  preserves registry_ok (route_status_page id now).
Proof.
  unfold route_status_page, TaskManager.getAllTasks.
  preserves_step; [preserves_step|].
  destruct a; [preserves_step|].
  preserves_step; [preserves_step|].
  destruct (find_ignoring_case id a); preserves_step.
Qed.

Lemma respond_ok handler sys :
  preserves registry_ok handler ->
  registry_ok (world sys) -> registry_ok (world (respond handler sys)).
Proof.
  intros H Hw. unfold respond. specialize (H (world sys) Hw).
  by destruct (handler (world sys)) as [[r|e] w].
Qed.

Lemma startAutomationTask_ok (w : World) hash cfg now :
  registry_ok w -> registry_ok (snd (startAutomationTask hash cfg now w)).
Proof.
  intros Hw. rewrite startAutomationTask_result. cbn [snd].
  apply preserves_ok_saveTasks.
  set (w0 := set_heap (heap w ++ [started_task (generateTaskId hash) cfg now]) w).
  assert (Hw0 : registry_ok w0).
  { eapply registry_ok_ext; [| |exact Hw]; cbn; [|done].
    rewrite length_app. lia. }
  apply (registry_ok_set w0 (generateTaskId hash) (length (heap w)) Hw0).
  apply lookup_lt_is_Some. subst w0. cbn. rewrite length_app. simpl. lia.
Qed.

Lemma step_ok (ev : Event) (sys : System) :
  registry_ok (world sys) -> registry_ok (world (step ev sys)).
Proof.
  intros Hw.
  destruct ev as [now|hash cfg now|id now|id now|id now|sid sig now|id];
    cbn [step].
  - by apply preserves_ok_loadTasks.
  - pose proof (startAutomationTask_ok (world sys) hash cfg now Hw) as H.
    by destruct (startAutomationTask hash cfg now (world sys)) as [[[??]|?] ?].
  - apply respond_ok; [apply preserves_ok_route_stop | done].
  - apply respond_ok; [apply preserves_ok_route_get_status | done].
  - apply respond_ok; [apply preserves_ok_route_status_page | done].
  - destruct (sessions sys !! sid) as [s|]; [|done].
    pose proof (resume_ok sig now s (world sys) Hw) as H.
    by destruct (resume sig now s (world sys)) as [s' w'].
  - by apply preserves_ok_removeTask.
Qed.

(** Whatever the durable file holds and however the writes fare, after any
    sequence of events (load completion, start, stop, poll, status page,
    session steps, removal) the registry has distinct identifiers and each
    of them refers to an object of the store. *)
Theorem reachable_registry_is_well_formed (evs : list Event)
  (file : option FileContent) (faults : list bool) :
  registry_ok (world (run evs (initial_system file faults))).
Proof.
  assert (Hinit : registry_ok (world (initial_system file faults))).
  { split; cbn; constructor. }
  revert Hinit. generalize (initial_system file faults). 
  induction evs as [|ev evs IH]; intros sys Hsys; cbn [run fold_left]; [done|].
  apply IH. by apply step_ok.
Qed.

(** ** What a task keeps for life *)

Section Respects.
Context (R : relation PersistentAutomationState).
Context `{!Reflexive R, !Transitive R}.

Lemma store_rel_refl h : store_rel R h h.
Proof. intros a t Ht. by exists t. Qed.

Lemma store_rel_trans h1 h2 h3 :
  store_rel R h1 h2 -> store_rel R h2 h3 -> store_rel R h1 h3.
Proof.
  intros H12 H23 a t Ht.
  destruct (H12 a t Ht) as (t2 & Ht2 & Hr2).
  destruct (H23 a t2 Ht2) as (t3 & Ht3 & Hr3).
  exists t3. split; [done | by etransitivity].
Qed.

Lemma store_rel_app h l : store_rel R h (h ++ l).
Proof.
  intros a t Ht. exists t. split; [by apply lookup_app_l_Some | done].
Qed.

Lemma store_rel_alter h f a : (forall t, R t (f t)) -> store_rel R h (alter f a h).
Proof.
  intros Hf b t Ht. destruct (decide (a = b)) as [->|Hne].
  - exists (f t). by rewrite list_lookup_alter_eq, Ht.
  - exists t. by rewrite list_lookup_alter_ne.
Qed.

Lemma respects_ret {A} (a : A) : respects R (ret a).
Proof. intros w. apply store_rel_refl. Qed.

Lemma respects_throw {A} e : respects R (@throw A e).
Proof. intros w. apply store_rel_refl. Qed.

Lemma respects_gets {A} (f : World -> A) : respects R (gets f).
Proof. intros w. apply store_rel_refl. Qed.

Lemma respects_read {A} a (f : PersistentAutomationState -> A) :
  respects R (read a f).
Proof. intros w. unfold read. destruct (heap w !! a); apply store_rel_refl. Qed.

Lemma respects_bind {A B} (m : Exec A) (k : A -> Exec B) :
  respects R m -> (forall a, respects R (k a)) -> respects R (bind m k).
Proof.
  intros Hm Hk w. unfold bind. specialize (Hm w).
  destruct (m w) as [[a|e] w1]; cbn [snd] in *; [|done].
  eapply store_rel_trans; [exact Hm | apply Hk].
Qed.

Lemma respects_try_catch {A} (m : Exec A) (h : JsError -> Exec A) :
  respects R m -> (forall e, respects R (h e)) -> respects R (try_catch m h).
Proof.
  intros Hm Hh w. unfold try_catch. specialize (Hm w).
  destruct (m w) as [[a|e] w1]; cbn [snd] in *; [done|].
  eapply store_rel_trans; [exact Hm | apply Hh].
Qed.

Lemma respects_if {A} (b : bool) (m1 m2 : Exec A) :
  respects R m1 -> respects R m2 -> respects R (if b then m1 else m2).
Proof. by destruct b. Qed.

Lemma respects_mutate a f : (forall t, R t (f t)) -> respects R (mutate a f).
Proof.
  intros Hf w. unfold mutate, modify. cbn [snd heap set_heap].
  by apply store_rel_alter.
Qed.

Lemma respects_alloc t : respects R (alloc t).
Proof. intros w. unfold alloc. cbn. apply store_rel_app. Qed.

Lemma respects_same_heap {A} (m : Exec A) :
  (forall w, heap (snd (m w)) = heap w) -> respects R m.
Proof. intros H w. rewrite H. apply store_rel_refl. Qed.
End Respects.

#[local] Instance evolves_refl : Reflexive evolves.
Proof. intros t. by repeat split. Qed.

#[local] Instance evolves_trans : Transitive evolves.
Proof.
  intros t1 t2 t3 (H1 & H2 & H3 & H4 & H5) (K1 & K2 & K3 & K4 & K5).
  repeat split; try congruence. lia.
Qed.

Lemma evolves_set_lastUpdated d t : evolves t (set_lastUpdated d t).
Proof. by repeat split. Qed.

Lemma evolves_set_messageCount n t : evolves t (set_messageCount n t).
Proof. by repeat split. Qed.

Lemma evolves_set_running b t : evolves t (set_running b t).
Proof. by repeat split. Qed.

Lemma evolves_next_index t :
  evolves t (set_messageRotationIndex (messageRotationIndex t + 1) t).
Proof. repeat split; simpl; lia. Qed.

Lemma evolves_assign_count_running (u : Fields) t :
  f_taskId u = None -> f_startTime u = None -> f_config u = None ->
  f_processId u = None -> f_messageRotationIndex u = None ->
  evolves t (Object_assign t u).
Proof.
  intros H1 H2 H3 H4 H5. unfold evolves, Object_assign. simpl.
  by rewrite H1, H2, H3, H4, H5.
Qed.

Lemma store_rel_insert (R : relation PersistentAutomationState)
  `{!Reflexive R} h a t t1 :
  h !! a = Some t -> R t t1 -> store_rel R h (<[a := t1]> h).
Proof.
  intros Ha Hr b t0 Hb. destruct (decide (a = b)) as [->|Hne].
  - exists t1. rewrite list_lookup_insert_eq by (by eapply lookup_lt_Some).
    split; [done|]. congruence.
  - exists t0. by rewrite list_lookup_insert_ne.
Qed.

Lemma respects_evolves_getNextMessage messages obj :
  respects evolves (getNextMessage messages obj).
Proof.
  intros w. destruct messages as [|m T]; [apply store_rel_refl; apply _|].
  destruct obj as [a|]; [|apply store_rel_refl; apply _].
  destruct (heap w !! a) as [t|] eqn:Ht.
  - rewrite (getNextMessage_step (m :: T) a w t ltac:(done) Ht). cbn [snd heap set_heap].
    apply (store_rel_insert evolves _ _ t); [done | apply evolves_next_index].
  - unfold getNextMessage, bind, read. rewrite Ht. apply store_rel_refl; apply _.
Qed.

Create HintDb evolves.
#[local] Hint Resolve respects_ret respects_throw respects_gets respects_read
  respects_alloc respects_evolves_getNextMessage evolves_refl evolves_trans
  : evolves.
#[local] Hint Extern 1 (respects evolves (mutate _ (set_lastUpdated _))) =>
  apply respects_mutate; [apply _ | apply evolves_set_lastUpdated]
  : evolves.
#[local] Hint Extern 1 (respects evolves (mutate _ (set_messageCount _))) =>
  apply respects_mutate; [apply _ | apply evolves_set_messageCount]
  : evolves.
#[local] Hint Extern 1 (respects evolves (mutate _ (set_running _))) =>
  apply respects_mutate; [apply _ | apply evolves_set_running]
  : evolves.

Ltac evolves_step :=
  first
    [ solve [auto with evolves]
    | apply respects_same_heap; [apply _ | intros ?; reflexivity]
    | apply respects_bind; [apply _ | | intros ?]
    | apply respects_try_catch; [apply _ | | intros ?]
    | apply respects_if ].

Lemma respects_evolves_saveTasks : respects evolves TaskManager.saveTasks.
Proof.
  apply respects_same_heap; [apply _ |]. apply saveTasks_heap.
Qed.
#[local] Hint Resolve respects_evolves_saveTasks : evolves.

Lemma respects_evolves_getTask id now : respects evolves (TaskManager.getTask id now).
Proof.
  unfold TaskManager.getTask. evolves_step; [evolves_step|].
  destruct a; repeat evolves_step.
Qed.

Lemma respects_evolves_updateTask id u now :
  f_taskId u = None -> f_startTime u = None -> f_config u = None ->
  f_processId u = None -> f_messageRotationIndex u = None ->
  respects evolves (TaskManager.updateTask id u now).
Proof.
  intros H1 H2 H3 H4 H5.
  unfold TaskManager.updateTask. evolves_step; [evolves_step|].
  destruct a; repeat evolves_step.
  apply respects_mutate; [apply _|]. intros t.
  by apply evolves_assign_count_running.
Qed.

Lemma respects_evolves_update_count id n now :
  respects evolves (TaskManager.updateTask id (only_messageCount n) now).
Proof. by apply respects_evolves_updateTask. Qed.

Lemma respects_evolves_update_stopped id b now :
  respects evolves (TaskManager.updateTask id (only_running b) now).
Proof. by apply respects_evolves_updateTask. Qed.

Lemma respects_evolves_update_final id b n now :
  respects evolves (TaskManager.updateTask id (running_and_messageCount b n) now).
Proof. by apply respects_evolves_updateTask. Qed.

Lemma respects_evolves_removeTask id : respects evolves (TaskManager.removeTask id).
Proof. unfold TaskManager.removeTask. repeat evolves_step. Qed.

Lemma respects_evolves_load_entries now entries :
  respects evolves (TaskManager.load_entries now entries).
Proof.
  induction entries as [|[id d] rest IH]; cbn [TaskManager.load_entries];
    repeat evolves_step; try exact IH.
Qed.

Lemma respects_evolves_loadTasks now : respects evolves (TaskManager.loadTasks now).
Proof.
  unfold TaskManager.loadTasks, console_log.
  evolves_step; [|repeat evolves_step].
  evolves_step; [unfold TaskManager.fs_readFile; intros w;
                 destruct (disk w); apply store_rel_refl; apply _|].
  evolves_step;
    [destruct a; cbn [TaskManager.JSON_parse]; repeat evolves_step|].
  evolves_step;
    [destruct a0; cbn [TaskManager.Object_entries]; repeat evolves_step|].
  evolves_step; [apply respects_evolves_load_entries|].
  repeat evolves_step.
Qed.
#[local] Hint Resolve respects_evolves_getTask respects_evolves_update_count
  respects_evolves_update_stopped respects_evolves_update_final
  respects_evolves_removeTask respects_evolves_loadTasks : evolves.

Lemma respects_evolves_loop_head s : respects evolves (loop_head s).
Proof. unfold loop_head. repeat evolves_step. Qed.

Lemma respects_evolves_after_send message now s :
  respects evolves (after_send message now s).
Proof. unfold after_send. repeat evolves_step. Qed.

Lemma respects_evolves_after_discovery found now s :
  respects evolves (after_discovery found now s).
Proof.
  unfold after_discovery. destruct found; [apply respects_evolves_loop_head|].
  repeat evolves_step.
Qed.

Lemma respects_evolves_segment sig now s : respects evolves (segment sig now s).
Proof.
  unfold segment.
  destruct (phase s) as [|[message|]| | | |], sig;
    auto using respects_evolves_loop_head, respects_evolves_after_send,
      respects_evolves_after_discovery with evolves.
Qed.

Lemma respects_evolves_on_fatal s now : respects evolves (on_fatal s now).
Proof. unfold on_fatal. repeat evolves_step. Qed.

Lemma respects_evolves_on_finally s now : respects evolves (on_finally s now).
Proof. unfold on_finally. repeat evolves_step. Qed.

Lemma resume_evolves sig now s w :
  store_rel evolves (heap w) (heap (snd (resume sig now s w))).
Proof.
  unfold resume. destruct (is_settled (phase s));
    [apply store_rel_refl; apply _|].
  pose proof (respects_try_catch evolves (segment sig now s)
                (fun _ => on_fatal s now)
                (respects_evolves_segment sig now s)
                (fun _ => respects_evolves_on_fatal s now) w) as Hbody.
  destruct (try_catch (segment sig now s) (fun _ => on_fatal s now) w)
    as [[s'|e] w1]; cbn [snd] in Hbody.
  - destruct (is_settled (phase s')); [|done].
    pose proof (respects_evolves_on_finally s' now w1) as Hfin.
    destruct (on_finally s' now w1) as [[?|?] w2]; cbn [snd] in *;
      eapply store_rel_trans; eauto; apply _.
  - pose proof (respects_evolves_on_finally s now w1) as Hfin.
    destruct (on_finally s now w1) as [[?|?] w2]; cbn [snd] in *;
      eapply store_rel_trans; eauto; apply _.
Qed.

Lemma respects_evolves_stopAutomationTask id now :
  respects evolves (stopAutomationTask id now).
Proof.
  unfold stopAutomationTask. evolves_step; [evolves_step|].
  destruct a; repeat evolves_step.
Qed.

Lemma respects_evolves_route_stop id now :
  respects evolves (route_stop_automation id now).
Proof.
  unfold route_stop_automation.
  evolves_step; [apply respects_evolves_stopAutomationTask|].
  destruct a; evolves_step.
Qed.

Lemma respects_evolves_route_get_status id now :
  respects evolves (route_get_status id now).
Proof.
  unfold route_get_status. evolves_step; [evolves_step|].
  destruct a; repeat evolves_step.
Qed.

Lemma respects_evolves_route_status_page id now :
  respects evolves (route_status_page id now).
Proof.
  unfold route_status_page, TaskManager.getAllTasks.
  evolves_step; [evolves_step|].
  destruct a; [evolves_step|].
  evolves_step; [evolves_step|].
  destruct (find_ignoring_case id a); evolves_step.
Qed.

Lemma respond_evolves handler sys :
  respects evolves handler ->
  store_rel evolves (heap (world sys)) (heap (world (respond handler sys))).
Proof.
  intros H. unfold respond. specialize (H (world sys)).
  by destruct (handler (world sys)) as [[r|e] w].
Qed.

Lemma step_evolves (ev : Event) (sys : System) :
  store_rel evolves (heap (world sys)) (heap (world (step ev sys))).
Proof.
  destruct ev as [now|hash cfg now|id now|id now|id now|sid sig now|id];
    cbn [step].
  - apply respects_evolves_loadTasks.
  - rewrite startAutomationTask_result. cbn [world].
    rewrite saveTasks_heap. cbn [heap]. apply store_rel_app. apply _.
  - apply respond_evolves, respects_evolves_route_stop.
  - apply respond_evolves, respects_evolves_route_get_status.
  - apply respond_evolves, respects_evolves_route_status_page.
  - destruct (sessions sys !! sid) as [s|]; [|apply store_rel_refl; apply _].
    pose proof (resume_evolves sig now s (world sys)) as H.
    by destruct (resume sig now s (world sys)) as [s' w'].
  - apply respects_evolves_removeTask.
Qed.

(** Whatever happens to the process (load completion, start, stop, poll,
    status page, any session step with any outcome, removal), a task object
    stays in the store and keeps its [taskId], [startTime], [config] and
    [processId], and its [messageRotationIndex] never decreases. *)
Theorem task_identity_is_immutable (evs : list Event) (sys : System)
  (a : nat) (t : PersistentAutomationState) :
  heap (world sys) !! a = Some t ->
  exists t',
    heap (world (run evs sys)) !! a = Some t'
    /\ taskId t' = taskId t /\ startTime t' = startTime t
    /\ config t' = config t /\ processId t' = processId t
    /\ messageRotationIndex t <= messageRotationIndex t'.
Proof.
  assert (H : store_rel evolves (heap (world sys)) (heap (world (run evs sys)))).
  { revert sys. induction evs as [|ev evs IH]; intros sys; cbn [run fold_left].
    - apply store_rel_refl. apply _.
    - eapply store_rel_trans; [apply _ | apply step_evolves | apply IH]. }
  intros Ht. destruct (H a t Ht) as (t' & Ht' & He). by exists t'.
Qed.

(** ** More on the discovery of the message input *)

Lemma candidates_from_origin (page : Page) (selectors : list string) :
  forall idx0 idx selector el,
    (idx, selector, el) ∈ candidates_from page idx0 selectors ->
    idx0 <= idx
    /\ selectors !! (idx - idx0) = Some selector
    /\ exists elements, query page selector = Some elements /\ el ∈ elements.
Proof.
  induction selectors as [|s rest IH]; intros idx0 idx selector el Hin;
    cbn [candidates_from] in Hin; [by apply elem_of_nil in Hin|].
  apply elem_of_app in Hin as [Hin|Hin].
  - destruct (query page s) as [elements|] eqn:Hq; [|by apply elem_of_nil in Hin].
    apply list_elem_of_fmap in Hin as (x & [= -> -> ->] & Hx).
    split; [lia|]. rewrite Nat.sub_diag. split; [done|]. eauto.
  - destruct (IH (S idx0) idx selector el Hin) as (Hle & Hsel & Hq).
    split; [lia|]. split; [|done].
    replace (idx - idx0) with (S (idx - S idx0)) by lia. done.
Qed.

Lemma every_pattern_accepts (idx : nat) (selector : string) :
  messageInputSelectors !! idx = Some selector ->
  (idx <? 10) || is_fallback_selector selector = true.
Proof.
  intros H.
  do 12 (destruct idx as [|idx]; [injection H as <-; vm_compute; reflexivity|]).
  discriminate.
Qed.

(** With the twelve patterns of the source the hint text decides nothing:
    the two patterns after the tenth are fallback patterns, so every
    interactive element that a pattern finds is accepted.  [findMessageInput]
    therefore returns the first interactive element in scan order, which is
    editable content or a text-entry control that a query for one of the
    twelve patterns returned, and returns [null] exactly when no pattern
    finds an interactive element. *)
Theorem findMessageInput_first_interactive (page : Page) :
  (forall c, c ∈ candidates page -> acceptable c = interactive c.2)
  /\ match findMessageInput page with
     | Some el =>
         exists before idx selector after elements,
           candidates page = before ++ (idx, selector, el) :: after
           /\ Forall (fun c => interactive c.2 = false) before
           /\ interactive el = true
           /\ isEditable el = true
           /\ messageInputSelectors !! idx = Some selector
           /\ query page selector = Some elements
           /\ el ∈ elements
     | None => Forall (fun c => interactive c.2 = false) (candidates page)
     end.
Proof.
  assert (Hall : forall c, c ∈ candidates page -> acceptable c = interactive c.2).
  { intros [[idx selector] el] Hc.
    destruct (candidates_from_origin page _ 0 idx selector el Hc)
      as (_ & Hsel & _).
    rewrite Nat.sub_0_r in Hsel. apply every_pattern_accepts in Hsel.
    unfold acceptable. cbn [snd].
    destruct (interactive el); [|done]. cbn [andb].
    destruct (hasKeyword (elementText el)); [done|]. exact Hsel. }
  split; [exact Hall|].
  unfold findMessageInput.
  pose proof (scan_selectors_first page messageInputSelectors 0) as Hscan.
  fold (candidates page) in Hscan.
  destruct (scan_selectors page 0 messageInputSelectors) as [el|].
  - destruct Hscan as (before & idx & selector & after & Hsplit & Hacc & Hb).
    assert (Hin : (idx, selector, el) ∈ candidates page).
    { rewrite Hsplit. apply elem_of_app. right. left. }
    destruct (candidates_from_origin page _ 0 idx selector el Hin)
      as (_ & Hsel & elements & Hq & Hel).
    rewrite Nat.sub_0_r in Hsel.
    assert (Hint : interactive el = true).
    { rewrite <- Hacc. symmetry. apply (Hall _ Hin). }
    exists before, idx, selector, after, elements.
    split; [done|]. split.
    { apply Forall_forall. intros c Hc. rewrite <- Hall.
      - rewrite Forall_forall in Hb. by apply Hb.
      - rewrite Hsplit. apply elem_of_app. by left. }
    split; [done|]. split; [|done].
    unfold interactive in Hint.
    by destruct (editable_check_throws el), (isEditable el).
  - apply Forall_forall. intros c Hc. rewrite <- (Hall c Hc).
    rewrite Forall_forall in Hscan. by apply Hscan.
Qed.

(** ** Strings: [trim] *)







(** ** The message list of a session *)


(** ** Cookies *)










(** ** How a session ends *)

Lemma updateTask_effect_on (w : World) (id : string) (u : Fields) (now : Z)
  (obj : nat) (t : PersistentAutomationState) :
  heap w !! obj = Some t ->
  exists w',
    TaskManager.updateTask id u now w = (Normal tt, w')
    /\ tasks w' = tasks w
    /\ (if bool_decide (JsMap.get id (tasks w) = Some obj)
        then heap w' !! obj = Some (set_lastUpdated now (Object_assign t u))
        else heap w' !! obj = Some t).
Proof.
  intros Ht. destruct (JsMap.get id (tasks w)) as [a|] eqn:Hget.
  - rewrite (updateTask_present w id u now a Hget). eexists.
    split; [reflexivity|]. rewrite saveTasks_tasks, saveTasks_heap.
    cbn [heap tasks set_heap]. split; [done|].
    destruct (decide (a = obj)) as [->|Hne].
    + rewrite bool_decide_eq_true_2 by done.
      by rewrite list_alter_alter_eq, list_lookup_alter_eq, Ht.
    + rewrite bool_decide_eq_false_2 by congruence.
      by rewrite !list_lookup_alter_ne.
  - rewrite (updateTask_absent w id u now Hget). exists w.
    split; [done|]. split; [done|]. by rewrite bool_decide_eq_false_2.
Qed.

Lemma on_finally_spec (s : Session) (now : Z) (w : World)
  (t : PersistentAutomationState) :
  heap w !! automationStateObj s = Some t ->
  exists w',
    on_finally s now w = (Normal tt, w')
    /\ tasks w' = tasks w
    /\ (if bool_decide (JsMap.get (taskId t) (tasks w) = Some (automationStateObj s))
        then heap w' !! automationStateObj s =
               Some (set_lastUpdated now (set_running false t))
        else heap w' !! automationStateObj s = Some t).
Proof.
  intros Ht.
  destruct (updateTask_effect_on w (taskId t)
              (running_and_messageCount false (messageCount t)) now
              (automationStateObj s) t Ht) as (w' & Hup & Htasks & Hobj).
  exists w'. split; [|split; [done|]].
  - unfold on_finally.
    rewrite (bind_normal _ _ w w _ (read_some _ taskId w t Ht)).
    rewrite (bind_normal _ _ w w _ (read_some _ messageCount w t Ht)).
    exact Hup.
  - destruct (bool_decide _); [|done]. rewrite Hobj. by destruct t.
Qed.

(** A stop takes effect where the loop looks at the flag.  When a session
    waits (in the delay after a message or in the recovery delay) and its
    task's [running] is false, the end of the wait makes it return the
    number of messages it has sent: no message is composed (the rotation
    index stays), nothing more is dispatched, the task keeps its count and
    [running] false, and from then on the session ignores every signal. *)
Theorem stopped_session_returns (now : Z) (s : Session) (w : World)
  (t : PersistentAutomationState) :
  waiting s -> heap w !! automationStateObj s = Some t -> running t = false ->
  exists w' t',
    resume Resolved now s w = (with_phase (Returned (messagesSent s)) s, w')
    /\ heap w' !! automationStateObj s = Some t'
    /\ running t' = false
    /\ messageCount t' = messageCount t
    /\ messageRotationIndex t' = messageRotationIndex t
    /\ tasks w' = tasks w
    /\ (forall sig now', resume sig now'
                           (with_phase (Returned (messagesSent s)) s) w'
                         = (with_phase (Returned (messagesSent s)) s, w')).
Proof.
  intros Hwait Ht Hrun.
  destruct (on_finally_spec (with_phase (Returned (messagesSent s)) s) now w t Ht)
    as (w' & Hfin & Htasks & Hobj).
  assert (Hseg : segment Resolved now s = loop_head s).
  { unfold segment. by destruct Hwait as [-> | ->]. }
  assert (Hns : is_settled (phase s) = false) by (by destruct Hwait as [-> | ->]).
  assert (Hres : resume Resolved now s w
                 = (with_phase (Returned (messagesSent s)) s, w')).
  { unfold resume. rewrite Hns, Hseg. unfold try_catch, loop_head.
    rewrite (bind_normal _ _ w w _ (read_some _ running w t Ht)).
    rewrite Hrun. unfold ret. cbn [phase with_phase is_settled].
    by rewrite Hfin. }
  cbn [automationStateObj with_phase] in Hobj.
  destruct (bool_decide _).
  - eexists w', _. split; [exact Hres|]. split; [exact Hobj|].
    by repeat split.
  - exists w', t. split; [exact Hres|]. by repeat split.
Qed.

Lemma mark_stopped_spec (now : Z) (w : World) (obj : nat)
  (t : PersistentAutomationState) :
  heap w !! obj = Some t -> JsMap.get (taskId t) (tasks w) = Some obj ->
  exists w1,
    TaskManager.updateTask (taskId t) (only_running false) now w = (Normal tt, w1)
    /\ tasks w1 = tasks w
    /\ heap w1 !! obj = Some (set_lastUpdated now (set_running false t)).
Proof.
  intros Ht Hget.
  destruct (updateTask_effect_on w (taskId t) (only_running false) now obj t Ht)
    as (w1 & Hup & Htasks & Hobj).
  rewrite bool_decide_eq_true_2 in Hobj by done.
  exists w1. split; [done|]. split; [done|]. rewrite Hobj. by destruct t.
Qed.

(** A session that fails before the loop (browser or navigation throws, or
    no message input is found) returns 0 without ever composing or
    dispatching a message, and leaves its task in the registry with
    [running] false and every other field but [lastUpdated] as it was. *)
Theorem session_failing_before_sending (sig : Signal) (now : Z) (s : Session)
  (w : World) (t : PersistentAutomationState) :
  phase s = Setup -> fails_before_sending sig ->
  heap w !! automationStateObj s = Some t ->
  JsMap.get (taskId t) (tasks w) = Some (automationStateObj s) ->
  exists w',
    resume sig now s w = (with_phase (Returned 0) s, w')
    /\ tasks w' = tasks w
    /\ heap w' !! automationStateObj s =
         Some (set_lastUpdated now (set_running false t)).
Proof.
  intros Hph Hsig Ht Hget.
  destruct (mark_stopped_spec now w _ t Ht Hget) as (w1 & Hup & Htasks1 & Hobj1).
  set (t1 := set_lastUpdated now (set_running false t)) in *.
  assert (Hget1 : JsMap.get (taskId t1) (tasks w1) = Some (automationStateObj s)).
  { by rewrite Htasks1. }
  destruct (on_finally_spec (with_phase (Returned 0) s) now w1 t1 Hobj1)
    as (w' & Hfin & Htasks & Hobj).
  cbn [automationStateObj with_phase] in Hobj.
  rewrite bool_decide_eq_true_2 in Hobj by done.
  assert (Hbody : try_catch (segment sig now s) (fun _ => on_fatal s now) w
                  = (Normal (with_phase (Returned 0) s), w1)).
  { unfold try_catch, segment. rewrite Hph. destruct sig as [page| |e].
    - change (findMessageInput page = None) in Hsig.
      rewrite Hsig. unfold after_discovery.
      rewrite (bind_normal _ _ w w _ (read_some _ taskId w t Ht)).
      by rewrite (bind_normal _ _ w w1 tt Hup).
    - done.
    - unfold throw, on_fatal.
      rewrite (bind_normal _ _ w w _ (read_some _ taskId w t Ht)).
      by rewrite (bind_normal _ _ w w1 tt Hup). }
  exists w'. split; [|split; [congruence|]].
  - unfold resume. rewrite Hph. cbn [is_settled]. rewrite Hbody.
    cbn [phase with_phase is_settled]. by rewrite Hfin.
  - rewrite Hobj. subst t1. by destruct t.
Qed.

(** ** The routes *)

Lemma route_get_status_present (w : World) (id : string) (now : Z) (a : nat)
  (t : PersistentAutomationState) :
  JsMap.get id (tasks w) = Some a -> heap w !! a = Some t ->
  exists w',
    route_get_status id now w =
      (Normal (StatusJson (status_text (running t)) (taskId t)), w')
    /\ tasks w' = tasks w
    /\ heap w' = alter (set_lastUpdated now) a (heap w).
Proof.
  intros Hget Ht. unfold route_get_status.
  set (w1 := snd (TaskManager.saveTasks
                    (set_heap (alter (set_lastUpdated now) a (heap w)) w))).
  assert (Ht1 : heap w1 !! a = Some (set_lastUpdated now t)).
  { subst w1. rewrite saveTasks_heap. cbn [heap set_heap].
    by rewrite list_lookup_alter_eq, Ht. }
  exists w1. split; [|split].
  - rewrite (bind_normal _ _ w w1 _ (getTask_present w id now a Hget)).
    rewrite (bind_normal _ _ w1 w1 _ (read_some a running w1 _ Ht1)).
    rewrite (bind_normal _ _ w1 w1 _ (read_some a taskId w1 _ Ht1)).
    unfold ret, status_text. by destruct t as [? [|] ? ? ? ? ? ?].
  - subst w1. by rewrite saveTasks_tasks.
  - subst w1. by rewrite saveTasks_heap.
Qed.

(** GET /api/get_status answers for an identifier that is, letter for
    letter, a key of the registry: the status is running or stopped after
    the task's flag, and the identifier echoed is the task's own [taskId];
    the only change is the refresh of that task's [lastUpdated].  For any
    other identifier it answers not-found and changes nothing. *)
Theorem get_status_answers_exact_identifier (w : World) (id : string) (now : Z) :
  match JsMap.get id (tasks w) with
  | Some a =>
      forall t, heap w !! a = Some t ->
        fst (route_get_status id now w)
          = Normal (StatusJson (status_text (running t)) (taskId t))
        /\ tasks (snd (route_get_status id now w)) = tasks w
        /\ heap (snd (route_get_status id now w))
             = <[a := set_lastUpdated now t]> (heap w)
  | None => route_get_status id now w = (Normal TaskNotFoundJson, w)
  end.
Proof.
  destruct (JsMap.get id (tasks w)) as [a|] eqn:Hget.
  - intros t Ht.
    destruct (route_get_status_present w id now a t Hget Ht)
      as (w' & -> & Htasks & Hheap).
    cbn [fst snd]. split; [done|]. split; [done|].
    rewrite Hheap. by apply alter_as_insert.
  - unfold route_get_status.
    by rewrite (bind_normal _ _ w w _ (getTask_absent w id now Hget)).
Qed.



Lemma route_stop_present (w : World) (id : string) (now : Z) (a : nat) :
  JsMap.get id (tasks w) = Some a ->
  exists w',
    route_stop_automation id now w = (Normal (StoppedJson id), w')
    /\ tasks w' = tasks w
    /\ heap w' = alter (fun t => set_lastUpdated now (set_running false t)) a (heap w).
Proof.
  intros Hget.
  destruct (stopAutomationTask_present w id now a Hget)
    as (w' & Hstop & Htasks & Hheap).
  exists w'. split; [|done]. unfold route_stop_automation.
  by rewrite (bind_normal _ _ w w' _ Hstop).
Qed.

(** A task that was just started is found by its identifier: a poll
    answers running and echoes the identifier, a stop succeeds, the next
    poll answers stopped, and a second stop succeeds again; this holds
    whatever the registry held before and however the writes to the durable
    file fare. *)
Theorem start_poll_stop_poll (w : World) (hash : string) (cfg : Config)
  (now1 now2 now3 now4 now5 : Z) :
  let id := generateTaskId hash in
  let w1 := snd (startAutomationTask hash cfg now1 w) in
  let w2 := snd (route_get_status id now2 w1) in
  let w3 := snd (route_stop_automation id now3 w2) in
  let w4 := snd (route_get_status id now4 w3) in
  fst (startAutomationTask hash cfg now1 w)
    = Normal (id, new_session (length (heap w)) cfg)
  /\ fst (route_get_status id now2 w1) = Normal (StatusJson "running" id)
  /\ fst (route_stop_automation id now3 w2) = Normal (StoppedJson id)
  /\ fst (route_get_status id now4 w3) = Normal (StatusJson "stopped" id)
  /\ fst (route_stop_automation id now5 w4) = Normal (StoppedJson id).
Proof.
  intros id w1 w2 w3 w4. subst w4 w3 w2 w1.
  rewrite startAutomationTask_result. fold id. cbn [fst snd].
  set (a := length (heap w)).
  set (w1 := snd (TaskManager.saveTasks _)).
  assert (Hget1 : JsMap.get id (tasks w1) = Some a).
  { subst w1. rewrite saveTasks_tasks. cbn [tasks]. apply get_set_eq. }
  assert (Ht1 : heap w1 !! a = Some (started_task id cfg now1)).
  { subst w1. rewrite saveTasks_heap. cbn [heap]. subst a.
    by rewrite lookup_app_r, Nat.sub_diag by lia. }
  destruct (route_get_status_present w1 id now2 a _ Hget1 Ht1)
    as (w2 & -> & Htasks2 & Hheap2). cbn [fst snd].
  assert (Hget2 : JsMap.get id (tasks w2) = Some a) by (by rewrite Htasks2).
  destruct (route_stop_present w2 id now3 a Hget2)
    as (w3 & -> & Htasks3 & Hheap3). cbn [fst snd].
  assert (Hget3 : JsMap.get id (tasks w3) = Some a) by (by rewrite Htasks3).
  assert (Ht3 : heap w3 !! a =
                Some (set_lastUpdated now3
                        (set_running false
                           (set_lastUpdated now2 (started_task id cfg now1))))).
  { rewrite Hheap3, Hheap2, list_alter_alter_eq, list_lookup_alter_eq, Ht1.
    done. }
  destruct (route_get_status_present w3 id now4 a _ Hget3 Ht3)
    as (w4 & -> & Htasks4 & Hheap4). cbn [fst snd].
  assert (Hget4 : JsMap.get id (tasks w4) = Some a) by (by rewrite Htasks4).
  destruct (route_stop_present w4 id now5 a Hget4) as (w5 & -> & _).
  by repeat split.
Qed.

(** ** More on recovery *)

Lemma load_entries_keys (now : Z) (entries : list (string * Fields)) :
  forall w w',
    NoDup (JsMap.keys (tasks w) ++ entries.*1) ->
    TaskManager.load_entries now entries w = (Normal tt, w') ->
    JsMap.keys (tasks w') = JsMap.keys (tasks w) ++ (fresh_entries now entries).*1.
Proof.
  induction entries as [|[id0 d0] rest IH]; intros w w' Hnd.
  - cbn. intros [= <-]. by rewrite app_nil_r.
  - cbn [TaskManager.load_entries]. unfold bind at 1, alloc.
    unfold bind at 1, read. cbn [heap set_heap].
    rewrite lookup_app_r, Nat.sub_diag by lia. cbn [lookup list_lookup].
    fold (reconstruct id0 now d0). fold (fresh now id0 d0).
    cbn [fmap list_fmap fst] in Hnd.
    assert (Hfresh_key : id0 ∉ JsMap.keys (tasks w)).
    { apply NoDup_app in Hnd as (_ & Hdisj & _). intros Hin.
      apply (Hdisj id0 Hin). left. }
    unfold fresh_entries. cbn [List.filter fst snd].
    destruct (fresh now id0 d0) eqn:Hf; unfold bind, modify, ret; intros Hrun.
    + apply IH in Hrun; cbn [tasks set_tasks set_heap] in *.
      * rewrite Hrun, keys_set, bool_decide_eq_false_2 by done.
        cbn [fmap list_fmap fst]. by rewrite <- app_assoc.
      * rewrite keys_set, bool_decide_eq_false_2 by done.
        by rewrite <- app_assoc.
    + apply IH in Hrun; cbn [tasks set_heap] in *; [done|].
      apply NoDup_app in Hnd as (H1 & H2 & H3).
      apply NoDup_cons in H3 as [H3 H4].
      apply NoDup_app. split; [done|]. split; [|done].
      intros x Hx Hx'. apply (H2 x Hx). by right.
Qed.

(** At process start, with a durable file of records under distinct
    identifiers, [loadTasks] recovers exactly the records that are less than
    24 hours old, in the order of the file; it logs their number, and it
    does not write to the file. *)
Theorem loadTasks_recovers_fresh_records (entries : list (string * Fields))
  (faults : list bool) (now : Z) :
  NoDup entries.*1 ->
  let w0 := initial_world (Some (JsonObject entries)) faults in
  let w' := snd (TaskManager.loadTasks now w0) in
  JsMap.keys (tasks w') = (fresh_entries now entries).*1
  /\ console w' = [LoadedTasks (length (fresh_entries now entries))]
  /\ disk w' = Some (JsonObject entries)
  /\ write_faults w' = faults.
Proof.
  intros Hnd w0 w'. subst w'.
  destruct (loadTasks_from_object now entries w0 eq_refl) as (w1 & Hrun & ->).
  destruct (load_entries_spec now entries w0)
    as (w1' & Hrun' & _ & Hdisk & Hfaults & Hcons & _).
  rewrite Hrun in Hrun'. injection Hrun' as <-.
  pose proof (load_entries_keys now entries w0 w1 Hnd Hrun) as Hkeys.
  cbn [snd tasks console disk write_faults].
  cbn [w0 initial_world tasks JsMap.keys fmap list_fmap app] in Hkeys.
  split; [exact Hkeys|]. split; [|by rewrite Hdisk, Hfaults].
  rewrite Hcons. cbn [w0 initial_world console app]. do 2 f_equal.
  transitivity (length (JsMap.keys (tasks w1))).
  - unfold JsMap.keys. by rewrite length_fmap.
  - rewrite Hkeys. by rewrite length_fmap.
Qed.

Lemma load_saved_registry (w : World) (now : Z) (faults' : list bool)
  (id : string) :
  registry_ok w ->
  let entries := TaskManager.Object_fromEntries (TaskManager.snapshot w) in
  let loaded := snd (TaskManager.loadTasks now
                       (initial_world (Some (JsonObject entries)) faults')) in
  match JsMap.get id (tasks w) with
  | Some a =>
      exists t, heap w !! a = Some t
        /\ if (now - lastUpdated t <? TaskManager.staleness_window)%Z
           then exists a', JsMap.get id (tasks loaded) = Some a'
                           /\ heap loaded !! a' = Some t
           else JsMap.get id (tasks loaded) = None
  | None => JsMap.get id (tasks loaded) = None
  end.
Proof.
  intros Hok entries loaded. subst loaded.
  set (w0 := initial_world (Some (JsonObject entries)) faults').
  destruct (loadTasks_from_object now entries w0 eq_refl) as (w1 & Hrun & ->).
  destruct (load_entries_spec now entries w0)
    as (w1' & Hrun' & Hheap & _ & _ & _ & Hother & Hget).
  rewrite Hrun in Hrun'. injection Hrun' as <-.
  cbn [snd tasks heap]. cbn [w0 initial_world heap tasks app length Nat.add] in *.
  assert (Hperm : entries ≡ₚ TaskManager.snapshot w)
    by apply Object_fromEntries_perm.
  assert (Hkeys : entries.*1 ≡ₚ JsMap.keys (tasks w)).
  { rewrite <- (snapshot_keys w Hok). by apply fmap_Permutation. }
  destruct (JsMap.get id (tasks w)) as [a|] eqn:Hid.
  - destruct Hok as [Hnd Hrefs].
    assert (Ha : is_Some (heap w !! a)).
    { apply get_Some_elem in Hid.
      rewrite Forall_forall in Hrefs. apply (Hrefs (id, a)). done. }
    destruct Ha as [t Ht]. exists t. split; [done|].
    assert (Hin : (id, to_json t) ∈ entries).
    { rewrite Hperm. by eapply snapshot_elem. }
    apply list_elem_of_lookup_1 in Hin as [i Hi].
    assert (Hnd' : NoDup entries.*1) by (by rewrite Hkeys).
    specialize (Hget Hnd' i id (to_json t) Hi).
    unfold fresh in Hget. rewrite reconstruct_to_json in Hget.
    destruct (now - lastUpdated t <? TaskManager.staleness_window)%Z; [|done].
    exists i. split; [done|].
    rewrite Hheap, list_lookup_fmap, Hi. simpl.
    by rewrite reconstruct_to_json.
  - rewrite Hother; [done|]. rewrite Hkeys. by apply get_None_not_key.
Qed.


(** A poll extends the life of a task: [getTask] sets [lastUpdated] to the
    time of the poll and saves, so when that write goes through, a process
    that loads the file less than 24 hours after the poll recovers the task,
    however old its previous [lastUpdated] was. *)
Theorem poll_extends_retention (w : World) (id : string) (a : nat)
  (poll_time load_time : Z) (faults' : list bool) :
  registry_ok w ->
  JsMap.get id (tasks w) = Some a ->
  head (write_faults w) <> Some true ->
  (load_time - poll_time < TaskManager.staleness_window)%Z ->
  let polled := snd (TaskManager.getTask id poll_time w) in
  let loaded := snd (TaskManager.loadTasks load_time
                       (initial_world (disk polled) faults')) in
  exists t a',
    heap w !! a = Some t
    /\ JsMap.get id (tasks loaded) = Some a'
    /\ heap loaded !! a' = Some (set_lastUpdated poll_time t).
Proof.
  intros Hok Hget Hwrite Hage polled loaded. subst polled loaded.
  rewrite (getTask_present w id poll_time a Hget). cbn [snd].
  set (touched := set_heap (alter (set_lastUpdated poll_time) a (heap w)) w).
  assert (Hok' : registry_ok touched).
  { eapply registry_ok_ext; [| |exact Hok]; cbn; [|done].
    by rewrite length_alter. }
  rewrite saveTasks_result, bool_decide_eq_false_2 by done.
  cbn [after_write disk].
  pose proof (load_saved_registry touched load_time faults' id Hok') as H.
  cbn [touched tasks set_heap] in H. rewrite Hget in H.
  destruct H as (t1 & Ht1 & H).
  change (alter (set_lastUpdated poll_time) a (heap w) !! a = Some t1) in Ht1.
  rewrite list_lookup_alter_eq in Ht1.
  destruct (heap w !! a) as [t|] eqn:Ht; [|done].
  injection Ht1 as <-. cbn [lastUpdated set_lastUpdated] in H.
  apply Z.ltb_lt in Hage. rewrite Hage in H.
  destruct H as (a' & Ha' & Hl). by exists t, a'.
Qed.

(** ** The order of the durable file *)

Lemma array_index_generated (hash : string) :
  TaskManager.array_index (generateTaskId hash) = None.
Proof. reflexivity. Qed.

Lemma Object_fromEntries_named {V} (l : list (string * V)) :
  Forall (fun e => TaskManager.array_index e.1 = None) l ->
  TaskManager.Object_fromEntries l = l.
Proof.
  intros H. unfold TaskManager.Object_fromEntries.
  induction H as [|e l He Hl IH]; [done|].
  cbn [TaskManager.index_entries TaskManager.named_entries List.filter].
  rewrite He. fold (TaskManager.named_entries l).
  destruct (TaskManager.index_entries l) as [|x xs] eqn:E.
  - cbn [fmap list_fmap app] in *. by rewrite IH.
  - exfalso. cbn [fmap list_fmap app] in IH.
    assert (Hlen : length (x.2 :: xs.*2 ++ TaskManager.named_entries l)
                   = length l) by (by rewrite IH).
    assert (Hnamed : TaskManager.named_entries l = l).
    { clear -Hl. induction Hl as [|e l He Hl IH]; [done|].
      cbn [TaskManager.named_entries List.filter]. rewrite He.
      f_equal. exact IH. }
    rewrite Hnamed in Hlen. cbn [length] in Hlen. rewrite length_app in Hlen.
    lia.
Qed.

(** When the write goes through, the durable file holds every task of the
    registry exactly once; and when the identifiers are those that
    [generateTaskId] makes, none of which is an array index, the file lists
    the tasks in the order in which they were added. *)
Theorem saved_file_lists_every_task (w : World) :
  registry_ok w -> head (write_faults w) <> Some true ->
  exists entries,
    disk (snd (TaskManager.saveTasks w)) = Some (JsonObject entries)
    /\ entries ≡ₚ TaskManager.snapshot w
    /\ NoDup entries.*1
    /\ entries.*1 ≡ₚ JsMap.keys (tasks w)
    /\ ((forall k, k ∈ JsMap.keys (tasks w) -> exists hash, k = generateTaskId hash)
        -> entries = TaskManager.snapshot w
           /\ entries.*1 = JsMap.keys (tasks w)).
Proof.
  intros Hok Hwrite.
  exists (TaskManager.Object_fromEntries (TaskManager.snapshot w)).
  rewrite saveTasks_result, bool_decide_eq_false_2 by done.
  cbn [snd after_write disk]. split; [done|].
  assert (Hperm : TaskManager.Object_fromEntries (TaskManager.snapshot w)
                  ≡ₚ TaskManager.snapshot w) by apply Object_fromEntries_perm.
  assert (Hkeys : (TaskManager.Object_fromEntries (TaskManager.snapshot w)).*1
                  ≡ₚ JsMap.keys (tasks w)).
  { rewrite <- (snapshot_keys w Hok). by apply fmap_Permutation. }
  split; [done|]. split; [rewrite Hkeys; apply Hok|]. split; [done|].
  intros Hgen.
  assert (Heq : TaskManager.Object_fromEntries (TaskManager.snapshot w)
                = TaskManager.snapshot w).
  { apply Object_fromEntries_named. apply Forall_forall. intros [k d] Hin.
    assert (Hk : k ∈ JsMap.keys (tasks w)).
    { rewrite <- (snapshot_keys w Hok).
      apply (list_elem_of_fmap_2 fst _ _ Hin). }
    destruct (Hgen k Hk) as [hash ->]. apply array_index_generated. }
  rewrite Heq. split; [done | by apply snapshot_keys].
Qed.

(** ** [addTask] and [getTask] *)

(** A task that was added is found under its identifier, whether or not the
    write to the durable file went through; the other identifiers refer to
    what they referred to; adding under an identifier already present
    replaces its task in place, and otherwise the identifier comes last; no
    object changes. *)
Theorem addTask_then_getTask (w : World) (id : string) (a : nat) (now : Z) :
  let w1 := snd (TaskManager.addTask id a w) in
  fst (TaskManager.getTask id now w1) = Normal (Some a)
  /\ (forall k, k <> id -> JsMap.get k (tasks w1) = JsMap.get k (tasks w))
  /\ JsMap.keys (tasks w1) =
       (if bool_decide (id ∈ JsMap.keys (tasks w))
        then JsMap.keys (tasks w) else JsMap.keys (tasks w) ++ [id])
  /\ heap w1 = heap w.
Proof.
  intros w1.
  assert (Htasks : tasks w1 = JsMap.set id a (tasks w)).
  { subst w1. unfold TaskManager.addTask, bind, modify.
    rewrite saveTasks_result. cbn [snd]. by destruct (bool_decide _). }
  assert (Hheap : heap w1 = heap w).
  { subst w1. unfold TaskManager.addTask, bind, modify.
    rewrite saveTasks_result. cbn [snd]. by destruct (bool_decide _). }
  split; [|split; [|split; [|done]]].
  - rewrite (getTask_present w1 id now a); [done|].
    rewrite Htasks. apply get_set_eq.
  - intros k Hk. rewrite Htasks. by apply get_set_ne.
  - rewrite Htasks. apply keys_set.
Qed.

(** ** What a session dispatches *)

Section Returns.
Context {A B : Type}.





End Returns.



Lemma counts_ok_with_phase (ph : Phase) (s : Session) :
  counts_ok s -> counts_ok (with_phase ph s).
Proof. done. Qed.








(** ** The first message of a session *)

(** With an empty list [getNextMessage] answers Hello! at every call and
    changes nothing, the cursor included; called without a task object it
    answers the first template and changes nothing. *)
Theorem getNextMessage_without_rotation (k : nat) (obj : nat) (w : World)
  (m : string) (T : list string) :
  next_messages k [] obj w = (Normal (replicate k (Some "Hello!")), w)
  /\ getNextMessage (m :: T) None w = (Normal (Some m), w).
Proof.
  split; [|done].
  induction k as [|k IH]; [done|]. cbn [next_messages replicate].
  rewrite (bind_normal _ _ w w (Some "Hello!")) by done.
  by rewrite (bind_normal _ _ w w _ IH).
Qed.


(** ** Instances *)

Lemma removeTask_forgets_only_the_key_witness :
  JsMap.get "RAGHAV-E2E-AAAA"
    (tasks (snd (TaskManager.removeTask "RAGHAV-E2E-AAAA" two_task_world))) = None
  /\ heap (snd (TaskManager.removeTask "RAGHAV-E2E-AAAA" two_task_world))
     = heap two_task_world.
Proof.
  pose proof (removeTask_forgets_only_the_key two_task_world "RAGHAV-E2E-AAAA"
                (proj1 two_task_world_ok)) as (_ & Hgone & _ & Hheap & _).
  exact (conj Hgone Hheap).
Defined.

Lemma task_identity_is_immutable_witness :
  exists t',
    heap (world (run [Resume 0 Resolved 3000; PostStop sample_id 4000;
                      Resume 0 Resolved 5000; Resume 0 Resolved 6000]
                     sample_system)) !! 0 = Some t'
    /\ taskId t' = sample_id /\ startTime t' = Some 1000%Z
    /\ config t' = Some sample_config /\ processId t' = Some sample_id
    /\ 1 <= messageRotationIndex t'.
Proof.
  exact (task_identity_is_immutable
           [Resume 0 Resolved 3000; PostStop sample_id 4000;
            Resume 0 Resolved 5000; Resume 0 Resolved 6000]
           sample_system 0 (sample_task sample_id true 0 1 2000%Z) eq_refl).
Defined.

Lemma stopped_session_returns_witness :
  exists w' t',
    resume Resolved 3000 waiting_session stopped_world
      = (with_phase (Returned 0) waiting_session, w')
    /\ heap w' !! 0 = Some t'
    /\ running t' = false
    /\ messageCount t' = 0
    /\ messageRotationIndex t' = 1
    /\ tasks w' = tasks stopped_world
    /\ (forall sig now', resume sig now' (with_phase (Returned 0) waiting_session) w'
                         = (with_phase (Returned 0) waiting_session, w')).
Proof.
  exact (stopped_session_returns 3000 waiting_session stopped_world
           (sample_task sample_id false 0 1 2000%Z)
           (or_intror eq_refl) eq_refl eq_refl).
Defined.

Lemma session_failing_before_sending_witness :
  exists w',
    resume (Rejected EIO) 3000 setup_session sample_world
      = (with_phase (Returned 0) setup_session, w')
    /\ tasks w' = tasks sample_world
    /\ heap w' !! 0 = Some (sample_task sample_id false 0 1 3000%Z).
Proof.
  exact (session_failing_before_sending (Rejected EIO) 3000 setup_session
           sample_world (sample_task sample_id true 0 1 2000%Z)
           eq_refl I eq_refl eq_refl).
Defined.


Lemma loadTasks_recovers_fresh_records_witness :
  JsMap.keys (tasks (snd (TaskManager.loadTasks 86400000
                            (initial_world (Some (JsonObject sample_entries)) []))))
    = ["RAGHAV-E2E-BBBB"]
  /\ console (snd (TaskManager.loadTasks 86400000
                     (initial_world (Some (JsonObject sample_entries)) [])))
     = [LoadedTasks 1].
Proof.
  pose proof (loadTasks_recovers_fresh_records sample_entries [] 86400000
                ltac:(compute_done)) as (Hkeys & Hlog & _).
  exact (conj Hkeys Hlog).
Defined.


Lemma poll_extends_retention_witness :
  exists t a',
    heap two_task_world !! 0 = Some t
    /\ JsMap.get "RAGHAV-E2E-AAAA"
         (tasks (snd (TaskManager.loadTasks 100000000
            (initial_world
               (disk (snd (TaskManager.getTask "RAGHAV-E2E-AAAA" 90000000
                             two_task_world))) []))))
       = Some a'
    /\ heap (snd (TaskManager.loadTasks 100000000
            (initial_world
               (disk (snd (TaskManager.getTask "RAGHAV-E2E-AAAA" 90000000
                             two_task_world))) [])))
         !! a' = Some (set_lastUpdated 90000000 t).
Proof.
  exact (poll_extends_retention two_task_world "RAGHAV-E2E-AAAA" 0
           90000000 100000000 [] two_task_world_ok eq_refl
           ltac:(discriminate) eq_refl).
Defined.

Lemma saved_file_lists_every_task_witness :
  exists entries,
    disk (snd (TaskManager.saveTasks two_task_world)) = Some (JsonObject entries)
    /\ entries ≡ₚ TaskManager.snapshot two_task_world
    /\ NoDup entries.*1
    /\ entries.*1 ≡ₚ JsMap.keys (tasks two_task_world)
    /\ ((forall k, k ∈ JsMap.keys (tasks two_task_world) ->
                   exists hash, k = generateTaskId hash)
        -> entries = TaskManager.snapshot two_task_world
           /\ entries.*1 = JsMap.keys (tasks two_task_world)).
Proof.
  exact (saved_file_lists_every_task two_task_world two_task_world_ok
           ltac:(discriminate)).
Defined.
